(** * Slew-rate limiter ([rate_limiter.c]): shallow embedding and properties

    The limiter works on [float32_t], the C [float].  It is modelled here as
    IEEE 754 binary32 through the Standard Library's executable
    specification of floating-point arithmetic ([SpecFloat], precision 24,
    maximal exponent 128, round to nearest even, one NaN).  Every arithmetic
    sign of the C source is the corresponding rounded operation.

    Instances live on the heap and are reached through a handle
    ([p_rate_limiter], a pointer that may be [NULL]).  The heap is a finite
    map from addresses to instance records; dereferencing a handle that is
    neither [NULL] nor allocated has no defined result ([None]). *)

From Stdlib Require Import ZArith Bool List Lia.
From Stdlib Require Import Floats.SpecFloat.
From stdpp Require Import base option gmap.

Local Open Scope Z_scope.

(** ** Single-precision floats *)

Module F32.

Definition prec : Z := 24.
Definition emax : Z := 128.

Definition float32_t : Set := spec_float.

(** [0.0f] *)
Definition zero : float32_t := S754_zero false.
Definition nan : float32_t := S754_nan.

Definition add : float32_t -> float32_t -> float32_t := SFadd prec emax.
Definition sub : float32_t -> float32_t -> float32_t := SFsub prec emax.
Definition mul : float32_t -> float32_t -> float32_t := SFmul prec emax.
Definition div : float32_t -> float32_t -> float32_t := SFdiv prec emax.
Definition neg : float32_t -> float32_t := SFopp.

(** The comparison operators of C: every one is false on a NaN operand,
    except [!=], which is true. *)
Definition ge (a b : float32_t) : bool :=
  match SFcompare a b with
  | Some (Gt | Eq) => true
  | _ => false
  end.

Definition gt (a b : float32_t) : bool :=
  match SFcompare a b with
  | Some Gt => true
  | _ => false
  end.

Definition le : float32_t -> float32_t -> bool := SFleb.
Definition lt : float32_t -> float32_t -> bool := SFltb.
Definition ne (a b : float32_t) : bool := negb (SFeqb a b).

(** A value of the binary32 format: canonical mantissa, exponent in range. *)
Definition valid (a : float32_t) : bool := valid_binary prec emax a.

Definition is_finite (a : float32_t) : bool :=
  match a with
  | S754_zero _ | S754_finite _ _ _ => true
  | _ => false
  end.

(** Dyadic literal [m * 2^e], rounded to binary32. *)
Definition of_Z_exp (m e : Z) : float32_t := binary_normalize prec emax m e false.
Definition of_Z (m : Z) : float32_t := of_Z_exp m 0.

Definition infinity : float32_t := S754_infinity false.
Definition max_float : float32_t := SFmax_float prec emax.

End F32.

Export F32.

Declare Scope f32_scope.
Delimit Scope f32_scope with f32.
Infix "+" := F32.add : f32_scope.
Infix "-" := F32.sub : f32_scope.
Infix "*" := F32.mul : f32_scope.
Infix "/" := F32.div : f32_scope.
Notation "- a" := (F32.neg a) : f32_scope.
Infix ">=?" := F32.ge (at level 70, no associativity) : f32_scope.
Infix ">?" := F32.gt (at level 70, no associativity) : f32_scope.
Infix "<=?" := F32.le (at level 70, no associativity) : f32_scope.
Infix "<?" := F32.lt (at level 70, no associativity) : f32_scope.
Infix "!=?" := F32.ne (at level 70, no associativity) : f32_scope.

(** ** Data model *)

(** [rate_limiter_status_t] *)
Inductive rate_limiter_status_t : Set :=
  | eRATE_LIMITER_OK
  | eRATE_LIMITER_ERROR.

(** [struct rate_limiter_s] *)
Record rate_limiter_t : Set := mk_rate_limiter {
  x_prev  : float32_t;   (* previous value of the output *)
  k_rise  : float32_t;   (* rising slew rate factor *)
  k_fall  : float32_t;   (* falling slew rate factor *)
  dt      : float32_t;   (* period of update *)
  is_init : bool         (* initialization success flag *)
}.

(** Field assignments [p->field = v]. *)
Definition set_x_prev (v : float32_t) (s : rate_limiter_t) : rate_limiter_t :=
  mk_rate_limiter v (k_rise s) (k_fall s) (dt s) (is_init s).
Definition set_k_rise (v : float32_t) (s : rate_limiter_t) : rate_limiter_t :=
  mk_rate_limiter (x_prev s) v (k_fall s) (dt s) (is_init s).
Definition set_k_fall (v : float32_t) (s : rate_limiter_t) : rate_limiter_t :=
  mk_rate_limiter (x_prev s) (k_rise s) v (dt s) (is_init s).
Definition set_dt (v : float32_t) (s : rate_limiter_t) : rate_limiter_t :=
  mk_rate_limiter (x_prev s) (k_rise s) (k_fall s) v (is_init s).
Definition set_is_init (v : bool) (s : rate_limiter_t) : rate_limiter_t :=
  mk_rate_limiter (x_prev s) (k_rise s) (k_fall s) (dt s) v.

(** Addresses of heap blocks, and the handle type [p_rate_limiter]:
    [None] is [NULL]. *)
Definition addr : Set := positive.
Definition p_rate_limiter : Set := option addr.
Definition NULL : p_rate_limiter := None.

(** The live instances. *)
Abbreviation heap := (gmap addr rate_limiter_t).

(** What [malloc( sizeof( rate_limiter_t ))] hands back: [None] when the
    allocation fails, otherwise the address of a block together with the
    indeterminate contents the block has before it is written. *)
Definition malloc_result : Set := option (addr * rate_limiter_t).

(** The output parameter [p_rate_limiter * p_rl_inst] of the init function:
    [None] when the caller passes [NULL], otherwise the handle the caller's
    variable holds at the time of the call. *)
Definition handle_ref : Set := option p_rate_limiter.

(** ** The operations of [src/rate_limiter.c] *)

Section Operations.

Local Open Scope f32_scope.

(** [rate_limiter_calc_rate_factor]: slew rate factor from the update
    period. *)
Definition rate_limiter_calc_rate_factor (dt slew_rate : float32_t) : float32_t :=
  let k_rate := zero in
  let k_rate := slew_rate * dt in
  k_rate.

(** [rate_limiter_init].  Returns the status, what the caller's handle
    variable holds afterwards, and the heap. *)
Definition rate_limiter_init (p_rl_inst : handle_ref)
    (rise_rate fall_rate dt : float32_t) (m : malloc_result) (h : heap)
    : rate_limiter_status_t * handle_ref * heap :=
  let status := eRATE_LIMITER_OK in
  match p_rl_inst with
  | Some old =>
      if dt >? zero then
        (* *p_rl_inst = malloc( sizeof( rate_limiter_t )); *)
        match m with
        | Some (l, blk) =>
            let blk := set_x_prev zero blk in
            let blk := set_dt dt blk in
            let blk := set_k_rise (rate_limiter_calc_rate_factor dt rise_rate) blk in
            let blk := set_k_fall (rate_limiter_calc_rate_factor dt fall_rate) blk in
            let blk := set_is_init true blk in
            (status, Some (Some l), <[l := blk]> h)
        | None => (status, Some NULL, h)
        end
      else (eRATE_LIMITER_ERROR, Some old, h)
  | None => (eRATE_LIMITER_ERROR, None, h)
  end.

(** The value [y] the update settles on for an initialized instance. *)
Definition limit (s : rate_limiter_t) (x : float32_t) : float32_t :=
  let dx := x - x_prev s in
  if dx >=? k_rise s then x_prev s + k_rise s
  else if dx <=? - (k_fall s) then x_prev s - k_fall s
  else x.

(** [rate_limiter_update] *)
Definition rate_limiter_update (rl_inst : p_rate_limiter) (x : float32_t)
    (h : heap) : option (float32_t * heap) :=
  let y := zero in
  match rl_inst with
  | Some l =>
      match h !! l with
      | Some s =>
          if is_init s then
            let y := limit s x in
            Some (y, <[l := set_x_prev y s]> h)
          else Some (y, h)
      | None => None
      end
  | None => Some (y, h)
  end.

(** [rate_limiter_is_init]: reads, never writes. *)
Definition rate_limiter_is_init (rl_inst : p_rate_limiter) (h : heap)
    : option bool :=
  let is_init_flag := false in
  match rl_inst with
  | Some l =>
      match h !! l with
      | Some s => Some (is_init s)
      | None => None
      end
  | None => Some is_init_flag
  end.

(** [rate_limiter_change_rate] *)
Definition rate_limiter_change_rate (rl_inst : p_rate_limiter)
    (rise_rate fall_rate : float32_t) (h : heap)
    : option (rate_limiter_status_t * heap) :=
  let status := eRATE_LIMITER_ERROR in
  match rl_inst with
  | Some l =>
      match h !! l with
      | Some s =>
          if is_init s then
            let s := set_k_rise (rate_limiter_calc_rate_factor (dt s) rise_rate) s in
            let s := set_k_fall (rate_limiter_calc_rate_factor (dt s) fall_rate) s in
            Some (eRATE_LIMITER_OK, <[l := s]> h)
          else Some (status, h)
      | None => None
      end
  | None => Some (status, h)
  end.

End Operations.

(** ** The second copy of the limiter kept in the repository

    It differs from [src/rate_limiter.c] in three places: the rate factor is
    a quotient by the period the instance holds, the init function tests the
    caller's handle instead of the address of the handle, and the update has
    an empty last branch. *)

Module Legacy.

Section Operations.

Local Open Scope f32_scope.

(** [rate_limiter_calc_rate_factor], on the instance [rl_inst] points
    to. *)
Definition rate_limiter_calc_rate_factor (rl_inst : rate_limiter_t)
    (slew_rate : float32_t) : float32_t :=
  let k_rate := nan in
  if dt rl_inst !=? zero then slew_rate / dt rl_inst else k_rate.

(** [rate_limiter_init]: [*p_rl_inst] is read before anything else, so
    a [NULL] output parameter has no defined result. *)
Definition rate_limiter_init (p_rl_inst : handle_ref)
    (rise_rate fall_rate dt : float32_t) (m : malloc_result) (h : heap)
    : option (rate_limiter_status_t * handle_ref * heap) :=
  let status := eRATE_LIMITER_OK in
  match p_rl_inst with
  | Some old =>
      if bool_decide (old ≠ NULL) && (dt >? zero) then
        match m with
        | Some (l, blk) =>
            let blk := set_k_rise (rate_limiter_calc_rate_factor blk rise_rate) blk in
            let blk := set_k_fall (rate_limiter_calc_rate_factor blk fall_rate) blk in
            let blk := set_x_prev zero blk in
            let blk := set_dt dt blk in
            let blk := set_is_init true blk in
            Some (status, Some (Some l), <[l := blk]> h)
        | None => Some (status, Some NULL, h)
        end
      else Some (eRATE_LIMITER_ERROR, Some old, h)
  | None => None
  end.

(** The value [y] of the update for an initialized instance; the last
    branch assigns nothing, so [y] keeps its initial [0.0f]. *)
Definition limit (s : rate_limiter_t) (x : float32_t) : float32_t :=
  let y := zero in
  let dx := x - x_prev s in
  if dx >=? k_rise s then x_prev s + k_rise s
  else if dx <=? - (k_fall s) then x_prev s - k_fall s
  else y.

Definition rate_limiter_update (rl_inst : p_rate_limiter) (x : float32_t)
    (h : heap) : option (float32_t * heap) :=
  let y := zero in
  match rl_inst with
  | Some l =>
      match h !! l with
      | Some s =>
          if is_init s then
            let y := limit s x in
            Some (y, <[l := set_x_prev y s]> h)
          else Some (y, h)
      | None => None
      end
  | None => Some (y, h)
  end.

Definition rate_limiter_change_rate (rl_inst : p_rate_limiter)
    (rise_rate fall_rate : float32_t) (h : heap)
    : option (rate_limiter_status_t * heap) :=
  let status := eRATE_LIMITER_ERROR in
  match rl_inst with
  | Some l =>
      match h !! l with
      | Some s =>
          if is_init s then
            let s := set_k_rise (rate_limiter_calc_rate_factor s rise_rate) s in
            let s := set_k_fall (rate_limiter_calc_rate_factor s fall_rate) s in
            Some (eRATE_LIMITER_OK, <[l := s]> h)
          else Some (status, h)
      | None => None
      end
  | None => Some (status, h)
  end.

End Operations.

End Legacy.

(** ** Sequences of calls on one instance *)

(** A call of the API on a handle, after the instance was created. *)
Inductive call : Set :=
  | CallUpdate (x : float32_t)
  | CallChangeRate (rise_rate fall_rate : float32_t)
  | CallIsInit.

(** The heap after one call; the returned value is dropped. *)
Definition do_call (rl_inst : p_rate_limiter) (c : call) (h : heap) : option heap :=
  match c with
  | CallUpdate x => snd <$> rate_limiter_update rl_inst x h
  | CallChangeRate rise_rate fall_rate =>
      snd <$> rate_limiter_change_rate rl_inst rise_rate fall_rate h
  | CallIsInit => (fun _ => h) <$> rate_limiter_is_init rl_inst h
  end.

Fixpoint do_calls (rl_inst : p_rate_limiter) (cs : list call) (h : heap)
    : option heap :=
  match cs with
  | [] => Some h
  | c :: cs' =>
      match do_call rl_inst c h with
      | Some h' => do_calls rl_inst cs' h'
      | None => None
      end
  end.

(** The outputs of successive updates on the inputs [xs]. *)
Fixpoint update_seq (rl_inst : p_rate_limiter) (xs : list float32_t) (h : heap)
    : option (list float32_t * heap) :=
  match xs with
  | [] => Some ([], h)
  | x :: xs' =>
      match rate_limiter_update rl_inst x h with
      | Some (y, h') =>
          match update_seq rl_inst xs' h' with
          | Some (ys, h'') => Some (y :: ys, h'')
          | None => None
          end
      | None => None
      end
  end.

(** The fields a call is meant to leave alone: the update keeps both
    increments, the reconfiguration keeps the previous output, the query
    keeps everything; all keep the period and the flag. *)
Definition leaves_alone (c : call) (s s' : rate_limiter_t) : Prop :=
  dt s' = dt s /\ is_init s' = is_init s /\
  match c with
  | CallUpdate _ => k_rise s' = k_rise s /\ k_fall s' = k_fall s
  | CallChangeRate _ _ => x_prev s' = x_prev s
  | CallIsInit => s' = s
  end.

(** A live, initialized instance at [l] whose period is [dt0]. *)
Definition ready (dt0 : float32_t) (l : addr) (h : heap) : Prop :=
  exists s : rate_limiter_t, h !! l = Some s /\ dt s = dt0 /\ is_init s = true.

(** Finite, well-formed binary32 values. *)
Definition finite32 (a : float32_t) : bool := valid a && is_finite a.

(** ** Vocabulary for the rounding proofs

    For a binary format with precision [prec] and maximal exponent [emax]. *)

Module Fmt.

Section Format.

Variables prec emax : Z.

(** After [j] one-bit shifts of [M], the record holds [M / 2^j], and both
    bits are clear when the discarded part is zero. *)
Definition shr_inv (M j : Z) (mrs : shr_record) : Prop :=
  shr_m mrs = M / 2 ^ j /\
  (M mod 2 ^ j = 0 -> shr_r mrs = false /\ shr_s mrs = false).

(** What [binary_round_aux] does with the mantissa once the exponent is
    settled. *)
Definition finish (s : bool) (m : positive) (e : Z) : spec_float :=
  if e <=? emax - prec then S754_finite s m e else S754_infinity s.

(** A finite value of the format is an integer multiple of [2^emin];
    [B2Z] is that integer. *)
Definition B2Z (a : spec_float) : Z :=
  match a with
  | S754_finite s m e => cond_Zopp s (Zpos m * 2 ^ (e - emin prec emax))
  | _ => 0
  end.

(** A finite, well-formed value of the format. *)
Definition fin (a : spec_float) : Prop :=
  valid_binary prec emax a = true /\ is_finite a = true.

(** [brackets N r]: the result [r] is well formed, is no NaN, and stands on
    the same side as the exact integer [N] of every finite value of the
    format. *)
Definition brackets (N : Z) (r : spec_float) : Prop :=
  valid_binary prec emax r = true /\ r <> S754_nan /\
  (forall c : spec_float, fin c -> B2Z c <= N -> SFleb c r = true) /\
  (forall c : spec_float, fin c -> N <= B2Z c -> SFleb r c = true).

End Format.

End Fmt.

(** ** Concrete values used by the examples *)

Definition f_1 : float32_t := of_Z 1.
Definition f_0_5 : float32_t := of_Z_exp 1 (-1).
Definition f_0_01 : float32_t := (of_Z 1 / of_Z 100)%f32.
Definition f_m1 : float32_t := of_Z (-1).
Definition f_m2 : float32_t := of_Z (-2).
Definition f_2 : float32_t := of_Z 2.

(** An arbitrary block content, as [malloc] may return it. *)
Definition junk : rate_limiter_t := mk_rate_limiter nan f_m1 infinity zero false.

(** The instance of the README: rise 1.0, fall 0.5, period 0.01. *)
Definition readme_init : rate_limiter_status_t * handle_ref * heap :=
  rate_limiter_init (Some NULL) f_1 f_0_5 f_0_01 (Some (1%positive, junk)) ∅.
Definition readme_heap : heap := readme_init.2.

(** An instance created with negative rates: rise -1.0, fall -2.0, period 1.0. *)
Definition negative_rates_heap : heap :=
  (rate_limiter_init (Some NULL) f_m1 f_m2 f_1 (Some (1%positive, junk)) ∅).2.

Definition readme_inst : rate_limiter_t :=
  mk_rate_limiter zero (f_1 * f_0_01)%f32 (f_0_5 * f_0_01)%f32 f_0_01 true.

Definition negative_rates_inst : rate_limiter_t :=
  mk_rate_limiter zero f_m1 f_m2 f_1 true.

(** An instance whose increments overflowed: rise and fall rate are the
    largest finite binary32 value and the period is 2.0, so both increments
    are [+infinity]; after the inputs [max_float] and [- max_float] its
    previous output is [-infinity]. *)
Definition overflow_heap : heap :=
  (rate_limiter_init (Some NULL) max_float max_float f_2 (Some (1%positive, junk)) ∅).2.

Definition overflow_heap_2 : heap :=
  match update_seq (Some 1%positive) [max_float; (- max_float)%f32] overflow_heap with
  | Some (_, h) => h
  | None => ∅
  end.

Definition overflow_inst : rate_limiter_t :=
  mk_rate_limiter (- infinity)%f32 infinity infinity f_2 true.

(** The exact value of a finite binary32 number, as an integer multiple of
    [2^emin], that is of [2^-149]; zero for the other values. *)
Definition exact32 (a : float32_t) : Z := Fmt.B2Z F32.prec F32.emax a.

Definition f_2p30 : float32_t := of_Z_exp 1 30.
Definition f_131072 : float32_t := of_Z 131072.
Definition f_262144 : float32_t := of_Z 262144.

(** 131072.015625, the binary32 value next above 131072. *)
Definition f_131072_next : float32_t := of_Z_exp 8388609 (-6).

(** The README instance brought to the previous output 131072 through the
    API: the rates are raised to [2^30], the input 131072 passes through,
    and the rates are set back to 1.0 and 0.5. *)
Definition rounding_calls : list call :=
  [CallChangeRate f_2p30 f_2p30; CallUpdate f_131072; CallChangeRate f_1 f_0_5].

Definition rounding_heap : heap :=
  default ∅ (do_calls (Some 1%positive) rounding_calls readme_heap).

Definition rounding_inst : rate_limiter_t :=
  mk_rate_limiter f_131072 (f_1 * f_0_01)%f32 (f_0_5 * f_0_01)%f32 f_0_01 true.

(** * Properties *)

(** ** Facts on binary32 comparison and subtraction *)

Section FloatFacts.

Local Open Scope f32_scope.

Lemma SFcompare_antisym (a b : float32_t) :
  SFcompare b a = option_map CompOpp (SFcompare a b).
Proof.
  destruct a as [sa|sa| |sa ma ea], b as [sb|sb| |sb mb eb]; simpl;
    try reflexivity; try (destruct sa; reflexivity);
    try (destruct sb; reflexivity);
    try (destruct sa, sb; reflexivity).
  f_equal.
  destruct sa, sb; try reflexivity;
    rewrite (Z.compare_antisym ea eb);
    destruct (ea ?= eb)%Z eqn:E; simpl; try reflexivity;
    rewrite (Pos.compare_cont_antisym ma mb Eq); simpl;
    try reflexivity.
Qed.

Lemma lt_not_ge (a b : float32_t) : (a <? b) = true -> (a >=? b) = false.
Proof.
  unfold lt, ge, SFltb. destruct (SFcompare a b) as [[]|]; congruence.
Qed.

Lemma lt_not_le_swap (a b : float32_t) : (a <? b) = true -> (b <=? a) = false.
Proof.
  unfold lt, le, SFltb, SFleb. rewrite (SFcompare_antisym a b).
  destruct (SFcompare a b) as [[]|]; simpl; congruence.
Qed.

Lemma gt_zero_not_le (r : float32_t) : (r >? zero) = true -> (zero >=? r) = false.
Proof.
  unfold gt, ge. rewrite (SFcompare_antisym r zero).
  destruct (SFcompare r zero) as [[]|]; simpl; congruence.
Qed.

Lemma gt_zero_neg (f : float32_t) : (f >? zero) = true -> (zero <=? - f) = false.
Proof.
  unfold gt, le, SFleb, neg, zero.
  destruct f as [s|[]| |[] m e]; simpl; congruence.
Qed.

(** [a - a] is [+0] for a finite [a], and NaN otherwise. *)
Lemma sub_diag (a : float32_t) : a - a = zero \/ a - a = nan.
Proof.
  destruct a as [[]|[]| |s m e]; simpl; auto.
  left. unfold sub, SFsub.
  rewrite Z.min_id, Z.sub_diag. reflexivity.
Qed.

Lemma ge_nan_l (a : float32_t) : (nan >=? a) = false.
Proof. reflexivity. Qed.

Lemma le_nan_l (a : float32_t) : (nan <=? a) = false.
Proof. reflexivity. Qed.

End FloatFacts.

(** ** Rounding of sums and differences

    The facts below hold for every binary format with [0 < prec < emax];
    they are used at [prec = 24], [emax = 128]. *)

Section BinaryRounding.

Variables prec emax : Z.
Hypothesis prec_gt_0 : 0 < prec.
Hypothesis prec_lt_emax : prec < emax.

Local Abbreviation emin := (emin prec emax).
Local Abbreviation fexp := (fexp prec emax).
Local Abbreviation shr_inv := Fmt.shr_inv.
Local Abbreviation finish := (Fmt.finish prec emax).
Local Abbreviation B2Z := (Fmt.B2Z prec emax).
Local Abbreviation fin := (Fmt.fin prec emax).
Local Abbreviation brackets := (Fmt.brackets prec emax).

Lemma emin_le_emax : emin <= emax - prec.
Proof. unfold SpecFloat.emin. lia. Qed.

(** *** Number of binary digits *)

Lemma digits2_bounds (p : positive) :
  2 ^ (Zpos (digits2_pos p) - 1) <= Zpos p < 2 ^ Zpos (digits2_pos p).
Proof.
  induction p as [p IH|p IH|]; cbn [digits2_pos].
  - rewrite Pos2Z.inj_succ, Z.pow_succ_r by lia.
    replace (Z.succ (Zpos (digits2_pos p)) - 1) with (Z.succ (Zpos (digits2_pos p) - 1)) by lia.
    rewrite Z.pow_succ_r by lia. lia.
  - rewrite Pos2Z.inj_succ, Z.pow_succ_r by lia.
    replace (Z.succ (Zpos (digits2_pos p)) - 1) with (Z.succ (Zpos (digits2_pos p) - 1)) by lia.
    rewrite Z.pow_succ_r by lia. lia.
  - simpl. lia.
Qed.

Lemma digits2_unique (m : positive) (d : Z) :
  2 ^ (d - 1) <= Zpos m < 2 ^ d -> Zpos (digits2_pos m) = d.
Proof.
  intros [Hlo Hhi]. pose proof (digits2_bounds m) as [Blo Bhi].
  assert (0 < d).
  { destruct (Z.ltb_spec 0 d) as [|Hd]; [assumption|].
    assert (2 ^ d <= 2 ^ 0) by (destruct (Z.eq_dec d 0) as [->|]; [lia|rewrite Z.pow_neg_r by lia; simpl; lia]).
    simpl in *. lia. }
  assert (Zpos (digits2_pos m) - 1 < d).
  { apply (Z.pow_lt_mono_r_iff 2); lia. }
  assert (d - 1 < Zpos (digits2_pos m)).
  { apply (Z.pow_lt_mono_r_iff 2); lia. }
  lia.
Qed.

Lemma pos_iter_xO (m d : positive) : Zpos (Pos.iter xO m d) = Zpos m * 2 ^ Zpos d.
Proof.
  revert m. induction d as [|d IH] using Pos.peano_ind; intros m.
  - simpl. lia.
  - rewrite Pos.iter_succ, Pos2Z.inj_succ, Z.pow_succ_r by lia.
    rewrite Pos2Z.inj_xO, IH. lia.
Qed.


(** *** Shifting right with round and sticky bits *)

Lemma shr_inv_0 (M : Z) : shr_inv M 0 (Build_shr_record M false false).
Proof. split; simpl; [rewrite Z.div_1_r; reflexivity|auto]. Qed.

Lemma pow2_pos (j : Z) : 0 <= j -> 0 < 2 ^ j.
Proof. intros. apply Z.pow_pos_nonneg; lia. Qed.

Lemma exact_succ (M j : Z) :
  0 <= j -> M mod 2 ^ (j + 1) = 0 ->
  M mod 2 ^ j = 0 /\ (M / 2 ^ j) mod 2 = 0.
Proof.
  intros Hj H. pose proof (pow2_pos j Hj) as Hp.
  rewrite Z.pow_add_r, Z.pow_1_r in H by lia.
  rewrite Z.rem_mul_r in H by lia.
  pose proof (Z.mod_pos_bound M (2 ^ j) Hp).
  pose proof (Z.mod_pos_bound (M / 2 ^ j) 2 ltac:(lia)).
  nia.
Qed.

Lemma shr_1_inv (M j : Z) (mrs : shr_record) :
  0 <= M -> 0 <= j -> shr_inv M j mrs -> shr_inv M (j + 1) (shr_1 mrs).
Proof.
  intros HM Hj [Hm Hex]. pose proof (pow2_pos j Hj) as Hp.
  assert (Hdiv : M / 2 ^ (j + 1) = (M / 2 ^ j) / 2).
  { rewrite Z.pow_add_r, Z.pow_1_r by lia. rewrite Z.div_div by lia. reflexivity. }
  assert (Hnn : 0 <= M / 2 ^ j) by (apply Z.div_pos; lia).
  destruct mrs as [m r s]. simpl in Hm, Hex. subst m. unfold Fmt.shr_inv.
  rewrite Hdiv.
  destruct (M / 2 ^ j) as [|[p|p|]|p] eqn:E; cbn [shr_1 shr_m shr_r shr_s]; try lia.
  - split; [reflexivity|]. intros H0. apply exact_succ in H0; [|lia].
    destruct H0 as [H0 _]. destruct (Hex H0) as [-> ->]. auto.
  - split; [rewrite Pos2Z.inj_xI; apply Z.div_unique with 1; lia|].
    intros H0. apply exact_succ in H0; [|lia]. destruct H0 as [_ H0].
    rewrite E, Pos2Z.inj_xI in H0.
    rewrite Z.add_comm, Z.mul_comm, Z.mod_add in H0 by lia. discriminate.
  - split; [rewrite Pos2Z.inj_xO; apply Z.div_unique with 0; lia|].
    intros H0. apply exact_succ in H0; [|lia].
    destruct H0 as [H0 _]. destruct (Hex H0) as [-> ->]. auto.
  - split; [reflexivity|].
    intros H0. apply exact_succ in H0; [|lia]. destruct H0 as [_ H0].
    rewrite E in H0. discriminate.
Qed.

Lemma iter_pos_shr_inv (M : Z) (p : positive) :
  0 <= M -> forall (j : Z) (mrs : shr_record),
  0 <= j -> shr_inv M j mrs -> shr_inv M (j + Zpos p) (SpecFloat.iter_pos shr_1 p mrs).
Proof.
  intros HM. induction p as [p IH|p IH|]; intros j mrs Hj H; cbn [SpecFloat.iter_pos].
  - replace (j + Zpos p~1) with (j + 1 + Zpos p + Zpos p) by lia.
    apply IH; [lia|]. apply IH; [lia|]. apply shr_1_inv; assumption.
  - replace (j + Zpos p~0) with (j + Zpos p + Zpos p) by lia.
    apply IH; [lia|]. apply IH; assumption.
  - apply shr_1_inv; assumption.
Qed.

Lemma round_nearest_even_bounds (M j : Z) (mrs : shr_record) :
  shr_inv M j mrs ->
  M / 2 ^ j <= round_nearest_even (shr_m mrs) (loc_of_shr_record mrs) <= M / 2 ^ j + 1
  /\ (M mod 2 ^ j = 0 ->
      round_nearest_even (shr_m mrs) (loc_of_shr_record mrs) = M / 2 ^ j).
Proof.
  intros [Hm Hex]. destruct mrs as [m r s]. simpl in *. subst m. split.
  - destruct r, s; simpl; try destruct (Z.even _); lia.
  - intros H0. destruct (Hex H0) as [-> ->]. reflexivity.
Qed.


(** *** Closed forms of [binary_round] *)

Lemma binary_round_aux_canonical (s : bool) (M : positive) (e : Z) :
  fexp (Zpos (digits2_pos M) + e) = e ->
  binary_round_aux prec emax s (Zpos M) e loc_Exact = finish s M e.
Proof.
  intros H. unfold binary_round_aux, shr_fexp. cbn [Zdigits2 shr_record_of_loc].
  rewrite H, Z.sub_diag. cbn [shr shr_m loc_of_shr_record round_nearest_even Zdigits2].
  rewrite H, Z.sub_diag. reflexivity.
Qed.

(** A mantissa of at most [prec] digits, at an exponent not below [emin],
    is not rounded: it is shifted left to its canonical exponent. *)
Lemma binary_round_short (s : bool) (m : positive) (e : Z) :
  emin <= e -> Zpos (digits2_pos m) <= prec ->
  exists (M : positive) (e0 : Z),
    emin <= e0 <= e /\ Zpos M = Zpos m * 2 ^ (e - e0) /\
    fexp (Zpos (digits2_pos M) + e0) = e0 /\
    binary_round prec emax s m e = finish s M e0.
Proof.
  intros He Hd. unfold binary_round.
  set (e0 := fexp (Zpos (digits2_pos m) + e)).
  assert (He0 : emin <= e0 <= e) by (unfold e0, SpecFloat.fexp; lia).
  unfold shl_align. destruct (e0 - e) as [|d|d] eqn:E; try lia.
  - exists m, e. assert (e0 = e) by lia.
    replace (e - e) with 0 by lia. rewrite Z.mul_1_r.
    split; [lia|]. split; [reflexivity|]. split; [unfold e0 in *; congruence|].
    apply binary_round_aux_canonical. unfold e0 in *; congruence.
  - exists (Pos.iter xO m d), e0. split; [lia|].
    assert (HM : Zpos (Pos.iter xO m d) = Zpos m * 2 ^ (e - e0)).
    { rewrite pos_iter_xO. f_equal. f_equal. lia. }
    split; [exact HM|].
    assert (Hdig : Zpos (digits2_pos (Pos.iter xO m d)) = Zpos (digits2_pos m) + (e - e0)).
    { apply digits2_unique. rewrite HM.
      pose proof (digits2_bounds m) as [Blo Bhi].
      pose proof (pow2_pos (e - e0) ltac:(lia)).
      replace (Zpos (digits2_pos m) + (e - e0) - 1) with (Zpos (digits2_pos m) - 1 + (e - e0)) by lia.
      rewrite !Z.pow_add_r by lia. nia. }
    assert (Hf : fexp (Zpos (digits2_pos (Pos.iter xO m d)) + e0) = e0).
    { rewrite Hdig. replace (Zpos (digits2_pos m) + (e - e0) + e0) with (Zpos (digits2_pos m) + e) by lia.
      reflexivity. }
    split; [exact Hf|]. apply binary_round_aux_canonical, Hf.
Qed.

(** A longer mantissa is shifted right by the excess [sh], rounded to [q']
    (the quotient or its successor, the quotient when nothing is lost), and
    renormalized when the rounding carries into a new digit. *)
Lemma binary_round_long (s : bool) (m : positive) (e : Z) :
  emin <= e -> prec < Zpos (digits2_pos m) ->
  exists q' : Z,
    let sh := Zpos (digits2_pos m) - prec in
    Zpos m / 2 ^ sh <= q' <= Zpos m / 2 ^ sh + 1 /\
    (Zpos m mod 2 ^ sh = 0 -> q' = Zpos m / 2 ^ sh) /\
    2 ^ (prec - 1) <= Zpos m / 2 ^ sh < 2 ^ prec /\
    binary_round prec emax s m e
    = if q' <? 2 ^ prec then finish s (Z.to_pos q') (e + sh)
      else finish s (Z.to_pos (2 ^ (prec - 1))) (e + sh + 1).
Proof.
  intros He Hd. unfold binary_round.
  set (dm := Zpos (digits2_pos m)) in *.
  assert (Hfe : fexp (dm + e) = dm + e - prec) by (unfold SpecFloat.fexp; lia).
  rewrite Hfe. unfold shl_align.
  destruct (dm + e - prec - e) as [|sh|sh] eqn:E; try lia.
  assert (Hsh : dm - prec = Zpos sh) by lia. rewrite Hsh.
  unfold binary_round_aux, shr_fexp. cbn [Zdigits2 shr_record_of_loc].
  fold dm. rewrite Hfe, E. cbn [shr].
  pose proof (iter_pos_shr_inv (Zpos m) sh ltac:(lia) 0 _ ltac:(lia) (shr_inv_0 (Zpos m)))
    as Hinv.
  rewrite Z.add_0_l in Hinv.
  set (mrs := SpecFloat.iter_pos shr_1 sh _) in *.
  destruct (round_nearest_even_bounds _ _ _ Hinv) as [Hb Hex].
  set (q' := round_nearest_even (shr_m mrs) (loc_of_shr_record mrs)) in *.
  pose proof (digits2_bounds m) as [Blo Bhi]. fold dm in Blo, Bhi.
  pose proof (pow2_pos (Zpos sh) ltac:(lia)) as Hp.
  assert (Hq : 2 ^ (prec - 1) <= Zpos m / 2 ^ Zpos sh < 2 ^ prec).
  { split.
    - apply Z.div_le_lower_bound; [lia|].
      rewrite <- Z.pow_add_r by lia. replace (Zpos sh + (prec - 1)) with (dm - 1) by lia.
      exact Blo.
    - apply Z.div_lt_upper_bound; [lia|].
      rewrite <- Z.pow_add_r by lia. replace (Zpos sh + prec) with dm by lia.
      exact Bhi. }
  exists q'. cbv zeta. split; [exact Hb|]. split; [exact Hex|]. split; [exact Hq|].
  pose proof (pow2_pos (prec - 1) ltac:(lia)) as Hpp.
  assert (Hq'pos : 0 < q') by lia.
  destruct q' as [|qp|qp] eqn:Eq'; try lia.
  cbn [Zdigits2 shr_record_of_loc].
  assert (H2p : 2 ^ prec = 2 * 2 ^ (prec - 1)).
  { rewrite <- Z.pow_succ_r by lia. f_equal. lia. }
  destruct (Z.ltb_spec (Zpos qp) (2 ^ prec)) as [Hlt|Hge].
  - assert (Hdq : Zpos (digits2_pos qp) = prec) by (apply digits2_unique; lia).
    rewrite Hdq.
    assert (Hf2 : fexp (prec + (e + Zpos sh)) = e + Zpos sh) by (unfold SpecFloat.fexp; lia).
    rewrite Hf2, Z.sub_diag. cbn [shr shr_m]. rewrite Pos2Z.id. reflexivity.
  - assert (Heq : Zpos qp = 2 ^ prec) by lia.
    assert (Hdq : Zpos (digits2_pos qp) = prec + 1).
    { apply digits2_unique. rewrite Heq. replace (prec + 1 - 1) with prec by lia.
      rewrite Z.pow_add_r by lia. lia. }
    rewrite Hdq.
    assert (Hf2 : fexp (prec + 1 + (e + Zpos sh)) = e + Zpos sh + 1) by (unfold SpecFloat.fexp; lia).
    rewrite Hf2. replace (e + Zpos sh + 1 - (e + Zpos sh)) with 1 by lia.
    cbn [shr SpecFloat.iter_pos].
    pose proof (shr_1_inv (Zpos qp) 0 _ ltac:(lia) ltac:(lia) (shr_inv_0 (Zpos qp))) as [Hm1 _].
    rewrite Hm1. replace (2 ^ (0 + 1)) with 2 by reflexivity.
    rewrite Heq, H2p, Z.mul_comm, Z.div_mul by lia.
    destruct (2 ^ (prec - 1)) as [|pp|pp] eqn:Epp; try lia.
    rewrite Pos2Z.id. reflexivity.
Qed.


(** *** Finite values as integers *)

Lemma pow2_double (a : Z) : 0 < a -> 2 ^ a = 2 * 2 ^ (a - 1).
Proof. intros. rewrite <- Z.pow_succ_r by lia. f_equal. lia. Qed.

Lemma bounded_facts (m : positive) (e : Z) :
  bounded prec emax m e = true ->
  emin <= e <= emax - prec /\ Zpos m < 2 ^ prec /\
  (emin < e -> 2 ^ (prec - 1) <= Zpos m).
Proof.
  unfold bounded, canonical_mantissa. intros H.
  apply andb_true_iff in H. destruct H as [Hc He].
  apply Z.eqb_eq in Hc. apply Z.leb_le in He.
  pose proof (digits2_bounds m) as [Blo Bhi].
  unfold SpecFloat.fexp in Hc.
  split; [lia|]. split.
  - apply Z.lt_le_trans with (1 := Bhi). apply Z.pow_le_mono_r; lia.
  - intros Hlt. replace (prec - 1) with (Zpos (digits2_pos m) - 1) by lia. exact Blo.
Qed.

Lemma scale_lt (m1 m2 k1 k2 : Z) :
  m1 < 2 ^ prec -> 2 ^ (prec - 1) <= m2 -> 0 <= k1 < k2 ->
  m1 * 2 ^ k1 < m2 * 2 ^ k2.
Proof.
  intros H1 H2 Hk.
  pose proof (pow2_pos k1 ltac:(lia)) as P1.
  pose proof (pow2_pos (prec - 1) ltac:(lia)) as Pp.
  assert (Hk2 : 2 * 2 ^ k1 <= 2 ^ k2).
  { rewrite <- Z.pow_succ_r by lia. apply Z.pow_le_mono_r; lia. }
  rewrite (pow2_double prec) in H1 by lia.
  nia.
Qed.

Lemma compare_finite_pos (m1 m2 : positive) (e1 e2 : Z) :
  bounded prec emax m1 e1 = true -> bounded prec emax m2 e2 = true ->
  match e1 ?= e2 with
  | Lt => Lt
  | Gt => Gt
  | Eq => Pos.compare_cont Eq m1 m2
  end = (Zpos m1 * 2 ^ (e1 - emin) ?= Zpos m2 * 2 ^ (e2 - emin)).
Proof.
  intros B1 B2.
  destruct (bounded_facts _ _ B1) as (He1 & Hm1 & Hn1).
  destruct (bounded_facts _ _ B2) as (He2 & Hm2 & Hn2).
  destruct (Z.compare_spec e1 e2) as [->|Hlt|Hgt].
  - pose proof (pow2_pos (e2 - emin) ltac:(lia)) as Hp.
    change (Pos.compare_cont Eq m1 m2) with (Zpos m1 ?= Zpos m2).
    destruct (Z.compare_spec (Zpos m1) (Zpos m2)) as [E|E|E]; symmetry;
      [apply Z.compare_eq_iff|apply Z.compare_lt_iff|apply Z.compare_gt_iff]; nia.
  - symmetry. apply Z.compare_lt_iff. apply scale_lt; lia.
  - symmetry. apply Z.compare_gt_iff. apply scale_lt; lia.
Qed.

(** On finite well-formed values the comparison of the format is the
    comparison of the integers. *)
Lemma SFcompare_B2Z (a b : spec_float) :
  fin a -> fin b -> SFcompare a b = Some (B2Z a ?= B2Z b).
Proof.
  intros [Va Fa] [Vb Fb].
  destruct a as [sa|sa| |sa ma ea], b as [sb|sb| |sb mb eb]; try discriminate;
    cbn [SFcompare Fmt.B2Z valid_binary] in *.
  - reflexivity.
  - pose proof (pow2_pos (eb - emin)). destruct (bounded_facts _ _ Vb) as (He & _).
    destruct sb; cbn [cond_Zopp]; f_equal; symmetry;
      [apply Z.compare_gt_iff|apply Z.compare_lt_iff]; nia.
  - pose proof (pow2_pos (ea - emin)). destruct (bounded_facts _ _ Va) as (He & _).
    destruct sa; cbn [cond_Zopp]; f_equal; symmetry;
      [apply Z.compare_lt_iff|apply Z.compare_gt_iff]; nia.
  - pose proof (pow2_pos (ea - emin)). destruct (bounded_facts _ _ Va) as (Hea & _).
    pose proof (pow2_pos (eb - emin)). destruct (bounded_facts _ _ Vb) as (Heb & _).
    f_equal. destruct sa, sb; cbn [cond_Zopp].
    + rewrite Z.compare_opp.
      rewrite <- (compare_finite_pos mb ma eb ea Vb Va).
      rewrite (Z.compare_antisym ea eb).
      destruct (ea ?= eb); simpl; try reflexivity.
      rewrite (Pos.compare_cont_antisym ma mb Eq). reflexivity.
    + symmetry. apply Z.compare_lt_iff. nia.
    + symmetry. apply Z.compare_gt_iff. nia.
    + apply compare_finite_pos; assumption.
Qed.

Lemma SFleb_B2Z (a b : spec_float) :
  fin a -> fin b -> SFleb a b = (B2Z a <=? B2Z b).
Proof.
  intros Ha Hb. unfold SFleb, Z.leb. rewrite (SFcompare_B2Z a b Ha Hb).
  destruct (B2Z a ?= B2Z b); reflexivity.
Qed.

Lemma SFltb_B2Z (a b : spec_float) :
  fin a -> fin b -> SFltb a b = (B2Z a <? B2Z b).
Proof.
  intros Ha Hb. unfold SFltb, Z.ltb. rewrite (SFcompare_B2Z a b Ha Hb).
  destruct (B2Z a ?= B2Z b); reflexivity.
Qed.


(** *** Rounding does not cross a value of the format *)

Lemma brackets_self (c : spec_float) : fin c -> brackets (B2Z c) c.
Proof.
  intros Hc. split; [apply Hc|]. split; [destruct c, Hc; discriminate|].
  split; intros c' Hc' H; rewrite SFleb_B2Z by assumption; apply Z.leb_le, H.
Qed.

Lemma brackets_transfer (N V : Z) (r : spec_float) :
  brackets V r ->
  (forall c : spec_float, fin c -> B2Z c <= N -> B2Z c <= V) ->
  (forall c : spec_float, fin c -> N <= B2Z c -> V <= B2Z c) ->
  brackets N r.
Proof.
  intros (Hv & Hn & Hlo & Hhi) H1 H2. repeat split; auto.
Qed.

Lemma fin_B2Z_lt (c : spec_float) : fin c -> B2Z c < 2 ^ (emax - emin).
Proof.
  intros [Vc Fc]. pose proof (pow2_pos (emax - emin)) as Hp.
  pose proof emin_le_emax.
  destruct c as [s|s| |s m e]; try discriminate; cbn [Fmt.B2Z]; try lia.
  cbn [valid_binary] in Vc. destruct (bounded_facts _ _ Vc) as (He & Hm & _).
  pose proof (pow2_pos (e - emin) ltac:(lia)).
  destruct s; cbn [cond_Zopp]; [nia|].
  apply Z.lt_le_trans with (2 ^ prec * 2 ^ (e - emin)); [nia|].
  rewrite <- Z.pow_add_r by lia. apply Z.pow_le_mono_r; lia.
Qed.

Lemma le_infinity (c : spec_float) :
  is_finite c = true -> SFleb c (S754_infinity false) = true.
Proof. destruct c; try discriminate; reflexivity. Qed.

(** A canonical positive mantissa and exponent, after the overflow test. *)
Lemma brackets_finish (M : positive) (e0 : Z) :
  emin <= e0 -> fexp (Zpos (digits2_pos M) + e0) = e0 ->
  brackets (Zpos M * 2 ^ (e0 - emin)) (finish false M e0).
Proof.
  intros He Hc. unfold Fmt.finish. destruct (Z.leb_spec e0 (emax - prec)) as [Hle|Hgt].
  - apply (brackets_self (S754_finite false M e0)). split; [|reflexivity].
    cbn [valid_binary]. unfold bounded, canonical_mantissa.
    apply andb_true_iff. split; [apply Z.eqb_eq, Hc|apply Z.leb_le, Hle].
  - split; [reflexivity|]. split; [discriminate|]. split.
    + intros c [_ Fc] _. apply le_infinity, Fc.
    + intros c Hfc Hc'. exfalso. pose proof (fin_B2Z_lt c Hfc) as Hlt.
      pose proof (digits2_bounds M) as [Blo _].
      pose proof emin_le_emax.
      assert (Hd : Zpos (digits2_pos M) = prec) by (unfold SpecFloat.fexp in Hc; lia).
      rewrite Hd in Blo.
      assert (2 ^ (emax - emin) <= Zpos M * 2 ^ (e0 - emin)); [|lia].
      apply Z.le_trans with (2 ^ (prec - 1) * 2 ^ (e0 - emin)).
      * rewrite <- Z.pow_add_r by lia. apply Z.pow_le_mono_r; lia.
      * pose proof (pow2_pos (e0 - emin) ltac:(lia)). nia.
Qed.

Lemma brackets_round_short (m : positive) (e : Z) :
  emin <= e -> Zpos (digits2_pos m) <= prec ->
  brackets (Zpos m * 2 ^ (e - emin)) (binary_round prec emax false m e).
Proof.
  intros He Hd.
  destruct (binary_round_short false m e He Hd) as (M & e0 & He0 & HM & Hc & ->).
  replace (Zpos m * 2 ^ (e - emin)) with (Zpos M * 2 ^ (e0 - emin)).
  - apply brackets_finish; [lia|exact Hc].
  - rewrite HM, <- Z.mul_assoc, <- Z.pow_add_r by lia. do 2 f_equal. lia.
Qed.


Lemma fin_pos_decomp (c : spec_float) :
  fin c -> 0 < B2Z c ->
  exists mc kc : Z,
    B2Z c = mc * 2 ^ kc /\ 0 <= kc /\ 0 < mc < 2 ^ prec /\
    (0 < kc -> 2 ^ (prec - 1) <= mc).
Proof.
  intros [Vc Fc] Hpos.
  destruct c as [s|s| |s m e]; try discriminate; cbn [Fmt.B2Z] in *; try lia.
  cbn [valid_binary] in Vc. destruct (bounded_facts _ _ Vc) as (He & Hm & Hn).
  pose proof (pow2_pos (e - emin) ltac:(lia)).
  destruct s; cbn [cond_Zopp] in *; [nia|].
  exists (Zpos m), (e - emin). repeat split; lia.
Qed.

(** Between [q * 2^K] and [(q + 1) * 2^K], for a [q] of full length, there
    is no value of the format: whatever is on one side of [N] is on the same
    side of the rounded [q' * 2^K]. *)
Lemma no_crossing (q q' K N mc kc : Z) :
  2 ^ (prec - 1) <= q < 2 ^ prec -> q <= q' <= q + 1 -> 0 <= K ->
  q * 2 ^ K <= N < (q + 1) * 2 ^ K -> (N = q * 2 ^ K -> q' = q) ->
  0 <= kc -> 0 < mc < 2 ^ prec -> (0 < kc -> 2 ^ (prec - 1) <= mc) ->
  (mc * 2 ^ kc <= N -> mc * 2 ^ kc <= q' * 2 ^ K) /\
  (N <= mc * 2 ^ kc -> q' * 2 ^ K <= mc * 2 ^ kc).
Proof.
  intros Hq Hq' HK HN Hex Hkc Hmc Hnorm.
  pose proof (pow2_pos K HK) as PK. pose proof (pow2_pos kc Hkc) as Pkc.
  pose proof (pow2_pos (prec - 1) ltac:(lia)) as Pp.
  pose proof (pow2_double prec prec_gt_0) as H2p.
  destruct (Z.lt_trichotomy kc K) as [Hlt|[->|Hgt]].
  - pose proof (scale_lt mc q kc K ltac:(lia) ltac:(lia) ltac:(lia)) as Hs.
    split; intros; nia.
  - split; intros H.
    + assert (mc <= q) by nia. nia.
    + assert (q <= mc) by nia.
      destruct (Z.eq_dec q mc) as [->|Hne].
      * rewrite Hex by lia. lia.
      * assert (q' <= mc) by lia. nia.
  - assert (Hk2 : 2 * 2 ^ K <= 2 ^ kc).
    { rewrite <- Z.pow_succ_r by lia. apply Z.pow_le_mono_r; lia. }
    assert (Hmc' : 2 ^ (prec - 1) <= mc) by (apply Hnorm; lia).
    assert (Hc : (q + 1) * 2 ^ K <= mc * 2 ^ kc) by nia.
    split; intros; nia.
Qed.

Lemma brackets_round_long (m : positive) (e : Z) :
  emin <= e -> prec < Zpos (digits2_pos m) ->
  brackets (Zpos m * 2 ^ (e - emin)) (binary_round prec emax false m e).
Proof.
  intros He Hd.
  destruct (binary_round_long false m e He Hd) as (q' & Hq' & Hex & Hq & ->).
  set (sh := Zpos (digits2_pos m) - prec) in *.
  set (q := Zpos m / 2 ^ sh) in *.
  assert (Hsh : 0 < sh) by (unfold sh; lia).
  pose proof (pow2_pos sh ltac:(lia)) as Psh.
  pose proof (pow2_pos (e - emin) ltac:(lia)) as Pe.
  pose proof (pow2_pos (prec - 1) ltac:(lia)) as Pp.
  pose proof (pow2_double prec prec_gt_0) as H2p.
  assert (HK : 2 ^ (e + sh - emin) = 2 ^ sh * 2 ^ (e - emin)).
  { rewrite <- Z.pow_add_r by lia. f_equal. lia. }
  pose proof (Z.div_mod (Zpos m) (2 ^ sh) ltac:(lia)) as Hdm. fold q in Hdm.
  pose proof (Z.mod_pos_bound (Zpos m) (2 ^ sh) Psh) as Hrem.
  apply brackets_transfer with (V := q' * 2 ^ (e + sh - emin)).
  - destruct (Z.ltb_spec q' (2 ^ prec)) as [Hlt|Hge].
    + assert (Hp : Zpos (Z.to_pos q') = q') by (apply Z2Pos.id; lia).
      rewrite <- Hp at 1. apply brackets_finish; [lia|].
      assert (Hdq : Zpos (digits2_pos (Z.to_pos q')) = prec)
        by (apply digits2_unique; lia).
      rewrite Hdq. unfold SpecFloat.fexp. lia.
    + assert (q' = 2 ^ prec) by lia. subst q'.
      assert (Hp : Zpos (Z.to_pos (2 ^ (prec - 1))) = 2 ^ (prec - 1))
        by (apply Z2Pos.id; lia).
      replace (2 ^ prec * 2 ^ (e + sh - emin))
        with (Zpos (Z.to_pos (2 ^ (prec - 1))) * 2 ^ (e + sh + 1 - emin)).
      * apply brackets_finish; [lia|].
        assert (Hdq : Zpos (digits2_pos (Z.to_pos (2 ^ (prec - 1)))) = prec).
        { apply digits2_unique. rewrite Hp. lia. }
        rewrite Hdq. unfold SpecFloat.fexp. lia.
      * rewrite Hp. replace (e + sh + 1 - emin) with (Z.succ (e + sh - emin)) by lia.
        rewrite Z.pow_succ_r by lia. lia.
  - intros c Hc Hle. destruct (Z.le_gt_cases (B2Z c) 0) as [Hneg|Hpos]; [nia|].
    destruct (fin_pos_decomp c Hc Hpos) as (mc & kc & Ec & Hkc & Hmc & Hn).
    rewrite Ec in *.
    apply (no_crossing q q' (e + sh - emin) (Zpos m * 2 ^ (e - emin)) mc kc);
      try assumption; try lia.
    + rewrite HK. nia.
    + rewrite HK. intros HNq. apply Hex. nia.
  - intros c Hc Hle. destruct (Z.le_gt_cases (B2Z c) 0) as [Hneg|Hpos]; [nia|].
    destruct (fin_pos_decomp c Hc Hpos) as (mc & kc & Ec & Hkc & Hmc & Hn).
    rewrite Ec in *.
    apply (no_crossing q q' (e + sh - emin) (Zpos m * 2 ^ (e - emin)) mc kc);
      try assumption; try lia.
    + rewrite HK. nia.
    + rewrite HK. intros HNq. apply Hex. nia.
Qed.

Lemma brackets_round (m : positive) (e : Z) :
  emin <= e ->
  brackets (Zpos m * 2 ^ (e - emin)) (binary_round prec emax false m e).
Proof.
  intros He. destruct (Z.le_gt_cases (Zpos (digits2_pos m)) prec).
  - apply brackets_round_short; assumption.
  - apply brackets_round_long; lia.
Qed.


(** *** Signs *)

Lemma binary_round_opp (m : positive) (e : Z) :
  binary_round prec emax true m e = SFopp (binary_round prec emax false m e).
Proof.
  unfold binary_round, binary_round_aux.
  destruct (shl_align m e _) as [mz ez].
  destruct (shr_fexp prec emax (Zpos mz) ez loc_Exact) as [mrs' e'].
  destruct (shr_fexp prec emax _ e' loc_Exact) as [mrs'' e''].
  destruct (shr_m mrs''); try reflexivity.
  destruct (e'' <=? emax - prec); reflexivity.
Qed.

Lemma SFopp_involutive (a : spec_float) : SFopp (SFopp a) = a.
Proof. destruct a as [[]|[]| |[] m e]; reflexivity. Qed.

Lemma SFcompare_opp (a b : spec_float) :
  SFcompare (SFopp a) (SFopp b) = SFcompare b a.
Proof.
  destruct a as [sa|sa| |sa ma ea], b as [sb|sb| |sb mb eb]; cbn [SFopp SFcompare];
    try reflexivity; try (destruct sa; reflexivity); try (destruct sb; reflexivity);
    try (destruct sa, sb; reflexivity).
  f_equal. destruct sa, sb; cbn [negb]; try reflexivity;
    rewrite (Z.compare_antisym ea eb); destruct (ea ?= eb); cbn [CompOpp];
    try reflexivity; rewrite Pos.compare_cont_antisym; reflexivity.
Qed.

Lemma fin_opp (c : spec_float) : fin c -> fin (SFopp c).
Proof. intros [V F]. destruct c; try discriminate; split; assumption. Qed.

Lemma B2Z_opp (c : spec_float) : B2Z (SFopp c) = - B2Z c.
Proof. destruct c as [s|s| |[] m e]; cbn [SFopp Fmt.B2Z negb cond_Zopp]; lia. Qed.

Lemma brackets_opp (N : Z) (r : spec_float) :
  brackets N r -> brackets (- N) (SFopp r).
Proof.
  intros (Hv & Hn & Hlo & Hhi). split; [destruct r; assumption|].
  split; [destruct r; try discriminate; congruence|].
  split; intros c Hc H; unfold SFleb.
  - rewrite <- (SFopp_involutive c), SFcompare_opp.
    apply (Hhi (SFopp c)); [apply fin_opp, Hc|rewrite B2Z_opp; lia].
  - rewrite <- (SFopp_involutive c), SFcompare_opp.
    apply (Hlo (SFopp c)); [apply fin_opp, Hc|rewrite B2Z_opp; lia].
Qed.

Lemma fin_zero (s : bool) : fin (S754_zero s).
Proof. split; reflexivity. Qed.

Lemma brackets_normalize (S e : Z) (szero : bool) :
  emin <= e ->
  brackets (S * 2 ^ (e - emin)) (binary_normalize prec emax S e szero).
Proof.
  intros He. destruct S as [|m|m]; cbn [binary_normalize].
  - apply (brackets_self (S754_zero szero)), fin_zero.
  - apply brackets_round, He.
  - rewrite binary_round_opp.
    replace (Zneg m * 2 ^ (e - emin)) with (- (Zpos m * 2 ^ (e - emin))) by lia.
    apply brackets_opp, brackets_round, He.
Qed.

(** *** Sum and difference of finite values *)

Lemma shl_align_fst (m : positive) (e e' : Z) :
  e' <= e -> Zpos (fst (shl_align m e e')) = Zpos m * 2 ^ (e - e').
Proof.
  intros H. unfold shl_align. destruct (e' - e) as [|d|d] eqn:E; try lia; cbn [fst].
  - replace (e - e') with 0 by lia. lia.
  - rewrite pos_iter_xO. do 2 f_equal. lia.
Qed.

Lemma B2Z_aligned (s : bool) (m : positive) (e ez : Z) :
  emin <= ez <= e ->
  cond_Zopp s (Zpos (fst (shl_align m e ez))) * 2 ^ (ez - emin)
  = B2Z (S754_finite s m e).
Proof.
  intros H. rewrite shl_align_fst by lia. cbn [Fmt.B2Z].
  assert (E : 2 ^ (e - emin) = 2 ^ (e - ez) * 2 ^ (ez - emin)).
  { rewrite <- Z.pow_add_r by lia. f_equal. lia. }
  rewrite E. destruct s; cbn [cond_Zopp]; lia.
Qed.

Theorem SFadd_brackets (a b : spec_float) :
  fin a -> fin b -> brackets (B2Z a + B2Z b) (SFadd prec emax a b).
Proof.
  intros Ha Hb. pose proof Ha as [Va Fa]. pose proof Hb as [Vb Fb].
  destruct a as [sa|sa| |sa ma ea], b as [sb|sb| |sb mb eb]; try discriminate.
  - cbn [Fmt.B2Z]. destruct sa, sb; apply (brackets_self (S754_zero _)), fin_zero.
  - apply (brackets_self (S754_finite sb mb eb)), Hb.
  - cbn [SFadd]. replace (B2Z (S754_finite sa ma ea) + B2Z (S754_zero sb))
      with (B2Z (S754_finite sa ma ea)) by (cbn [Fmt.B2Z]; lia).
    apply brackets_self, Ha.
  - cbn [valid_binary] in Va, Vb.
    destruct (bounded_facts _ _ Va) as (Hea & _).
    destruct (bounded_facts _ _ Vb) as (Heb & _).
    cbn [SFadd].
    rewrite <- (B2Z_aligned sa ma ea (Z.min ea eb)) by lia.
    rewrite <- (B2Z_aligned sb mb eb (Z.min ea eb)) by lia.
    rewrite <- Z.mul_add_distr_r.
    apply brackets_normalize. lia.
Qed.

Lemma SFsub_as_add (a b : spec_float) :
  SFsub prec emax a b = SFadd prec emax a (SFopp b).
Proof.
  destruct a as [sa|sa| |sa ma ea], b as [sb|sb| |sb mb eb]; cbn [SFsub SFadd SFopp];
    try reflexivity; destruct sa, sb; reflexivity.
Qed.

Theorem SFsub_brackets (a b : spec_float) :
  fin a -> fin b -> brackets (B2Z a - B2Z b) (SFsub prec emax a b).
Proof.
  intros Ha Hb. rewrite SFsub_as_add.
  replace (B2Z a - B2Z b) with (B2Z a + B2Z (SFopp b)) by (rewrite B2Z_opp; lia).
  apply SFadd_brackets; [exact Ha|apply fin_opp, Hb].
Qed.

End BinaryRounding.

(** ** Basic equations of the operations *)

Section Equations.

Local Open Scope f32_scope.

Lemma set_x_prev_id (s : rate_limiter_t) : set_x_prev (x_prev s) s = s.
Proof. destruct s; reflexivity. Qed.

Lemma update_null (x : float32_t) (h : heap) :
  rate_limiter_update NULL x h = Some (zero, h).
Proof. reflexivity. Qed.

Lemma update_not_init (h : heap) (l : addr) (s : rate_limiter_t) (x : float32_t) :
  h !! l = Some s -> is_init s = false ->
  rate_limiter_update (Some l) x h = Some (zero, h).
Proof. intros Hl Hi. unfold rate_limiter_update. rewrite Hl, Hi. reflexivity. Qed.

Lemma update_init (h : heap) (l : addr) (s : rate_limiter_t) (x : float32_t) :
  h !! l = Some s -> is_init s = true ->
  rate_limiter_update (Some l) x h
  = Some (limit s x, <[l := set_x_prev (limit s x) s]> h).
Proof. intros Hl Hi. unfold rate_limiter_update. rewrite Hl, Hi. reflexivity. Qed.

Lemma change_rate_init (h : heap) (l : addr) (s : rate_limiter_t)
    (rise_rate fall_rate : float32_t) :
  h !! l = Some s -> is_init s = true ->
  rate_limiter_change_rate (Some l) rise_rate fall_rate h
  = Some (eRATE_LIMITER_OK,
          <[l := mk_rate_limiter (x_prev s) (rise_rate * dt s) (fall_rate * dt s)
                   (dt s) (is_init s)]> h).
Proof.
  intros Hl Hi. unfold rate_limiter_change_rate. rewrite Hl.
  destruct s; simpl in *; subst; reflexivity.
Qed.

Lemma init_success (old : p_rate_limiter) (rise_rate fall_rate dt0 : float32_t)
    (l : addr) (blk : rate_limiter_t) (h : heap) :
  (dt0 >? zero) = true ->
  rate_limiter_init (Some old) rise_rate fall_rate dt0 (Some (l, blk)) h
  = (eRATE_LIMITER_OK, Some (Some l),
     <[l := mk_rate_limiter zero (rise_rate * dt0) (fall_rate * dt0) dt0 true]> h).
Proof. intros Hdt. unfold rate_limiter_init. rewrite Hdt. reflexivity. Qed.

(** The three branches of [limit]. *)
Lemma limit_rise (s : rate_limiter_t) (x : float32_t) :
  (x - x_prev s >=? k_rise s) = true -> limit s x = x_prev s + k_rise s.
Proof. intros H. unfold limit. rewrite H. reflexivity. Qed.

Lemma limit_fall (s : rate_limiter_t) (x : float32_t) :
  (x - x_prev s >=? k_rise s) = false ->
  (x - x_prev s <=? - k_fall s) = true -> limit s x = x_prev s - k_fall s.
Proof. intros H1 H2. unfold limit. rewrite H1, H2. reflexivity. Qed.

Lemma limit_pass (s : rate_limiter_t) (x : float32_t) :
  (x - x_prev s >=? k_rise s) = false ->
  (x - x_prev s <=? - k_fall s) = false -> limit s x = x.
Proof. intros H1 H2. unfold limit. rewrite H1, H2. reflexivity. Qed.

End Equations.

(** ** The update rule *)

Section Update.

Local Open Scope f32_scope.

(** Claim C1, as the code has it.  For an initialized instance with
    previous output [p], rise increment [r] and fall increment [f], and any
    input [x], the update returns a value [y] and stores it as the new
    previous output, where [y = p + r] when [x - p >= r]; [y = p - f] when
    [x - p >= r] does not hold and [x - p <= -f]; and [y = x] when
    [-f < x - p < r].  The rise test is made first: the fall clamp applies
    only when the rise clamp does not. *)
Theorem update_clamps_and_stores (h : heap) (l : addr) (s : rate_limiter_t)
    (x : float32_t) :
  h !! l = Some s -> is_init s = true ->
  exists y : float32_t,
    rate_limiter_update (Some l) x h = Some (y, <[l := set_x_prev y s]> h)
    /\ ((x - x_prev s >=? k_rise s) = true -> y = x_prev s + k_rise s)
    /\ ((x - x_prev s >=? k_rise s) = false ->
        (x - x_prev s <=? - k_fall s) = true -> y = x_prev s - k_fall s)
    /\ ((- k_fall s <? x - x_prev s) = true ->
        (x - x_prev s <? k_rise s) = true -> y = x).
Proof.
  intros Hl Hi. exists (limit s x). split.
  - apply update_init; assumption.
  - split; [apply limit_rise|split; [apply limit_fall|]].
    intros Hlo Hhi. apply limit_pass.
    + apply lt_not_ge, Hhi.
    + apply lt_not_le_swap, Hlo.
Qed.

Lemma update_clamps_and_stores_witness :
  readme_heap !! 1%positive = Some readme_inst /\ is_init readme_inst = true /\
  exists y : float32_t,
    rate_limiter_update (Some 1%positive) f_1 readme_heap
    = Some (y, <[1%positive := set_x_prev y readme_inst]> readme_heap)
    /\ ((f_1 - x_prev readme_inst >=? k_rise readme_inst) = true ->
        y = x_prev readme_inst + k_rise readme_inst)
    /\ ((f_1 - x_prev readme_inst >=? k_rise readme_inst) = false ->
        (f_1 - x_prev readme_inst <=? - k_fall readme_inst) = true ->
        y = x_prev readme_inst - k_fall readme_inst)
    /\ ((- k_fall readme_inst <? f_1 - x_prev readme_inst) = true ->
        (f_1 - x_prev readme_inst <? k_rise readme_inst) = true -> y = f_1).
Proof.
  split; [vm_compute; reflexivity|].
  split; [reflexivity|].
  apply (update_clamps_and_stores readme_heap 1%positive readme_inst f_1);
    vm_compute; reflexivity.
Defined.

(** Claim C1 as stated fails where both tests hold.  The instance created
    with rise rate -1.0, fall rate -2.0 and period 1.0 has [p = 0],
    [r = -1], [f = -2]; on input [0.0] the test [x - p <= -f] holds, and
    the update returns [p + r = -1], not [p - f = 2]. *)
Lemma update_fall_clause_overlap_counterexample :
  negative_rates_heap !! 1%positive = Some negative_rates_inst /\
  is_init negative_rates_inst = true /\
  (zero - x_prev negative_rates_inst <=? - k_fall negative_rates_inst) = true /\
  rate_limiter_update (Some 1%positive) zero negative_rates_heap
  = Some (f_m1, <[1%positive := set_x_prev f_m1 negative_rates_inst]> negative_rates_heap) /\
  f_m1 <> x_prev negative_rates_inst - k_fall negative_rates_inst.
Proof.
  repeat split; try (vm_compute; reflexivity).
  vm_compute. discriminate.
Qed.

(** Claim C5.  On a [NULL] handle, and on an instance whose flag is
    false, the update returns [0.0f] and leaves the heap as it is; the
    initialization query returns [false] on a [NULL] handle and the stored
    flag otherwise, and has no heap to change. *)
Theorem uninitialized_safety (x : float32_t) (h : heap) :
  rate_limiter_update NULL x h = Some (zero, h)
  /\ (forall (l : addr) (s : rate_limiter_t),
        h !! l = Some s -> is_init s = false ->
        rate_limiter_update (Some l) x h = Some (zero, h))
  /\ rate_limiter_is_init NULL h = Some false
  /\ (forall (l : addr) (s : rate_limiter_t),
        h !! l = Some s -> rate_limiter_is_init (Some l) h = Some (is_init s)).
Proof.
  split; [reflexivity|]. split; [intros l s; apply update_not_init|].
  split; [reflexivity|].
  intros l s Hl. unfold rate_limiter_is_init. rewrite Hl. reflexivity.
Qed.

Lemma uninitialized_safety_witness :
  ({[2%positive := junk]} : heap) !! 2%positive = Some junk /\
  is_init junk = false /\
  rate_limiter_update NULL f_1 {[2%positive := junk]} = Some (zero, {[2%positive := junk]}) /\
  rate_limiter_update (Some 2%positive) f_1 {[2%positive := junk]}
  = Some (zero, {[2%positive := junk]}) /\
  rate_limiter_is_init NULL {[2%positive := junk]} = Some false /\
  rate_limiter_is_init (Some 2%positive) {[2%positive := junk]} = Some (is_init junk).
Proof.
  assert (H1 : ({[2%positive := junk]} : heap) !! 2%positive = Some junk)
    by (vm_compute; reflexivity).
  assert (H2 : is_init junk = false) by reflexivity.
  refine (conj H1 (conj H2 _)).
  destruct (uninitialized_safety f_1 {[2%positive := junk]}) as (A & B & C & D).
  exact (conj A (conj (B 2%positive junk H1 H2) (conj C (D 2%positive junk H1)))).
Defined.

(** Claim C10.  With both increments strictly positive, an update whose
    input equals the stored previous output returns that input and leaves
    the heap as it is. *)
Theorem update_fixpoint (h : heap) (l : addr) (s : rate_limiter_t) :
  h !! l = Some s -> is_init s = true ->
  (k_rise s >? zero) = true -> (k_fall s >? zero) = true ->
  rate_limiter_update (Some l) (x_prev s) h = Some (x_prev s, h).
Proof.
  intros Hl Hi Hr Hf.
  rewrite (update_init h l s (x_prev s) Hl Hi).
  assert (Hy : limit s (x_prev s) = x_prev s).
  { apply limit_pass; destruct (sub_diag (x_prev s)) as [E|E]; rewrite E.
    - apply gt_zero_not_le, Hr.
    - apply ge_nan_l.
    - apply gt_zero_neg, Hf.
    - apply le_nan_l. }
  rewrite Hy, set_x_prev_id, (insert_id h l s Hl). reflexivity.
Qed.

Lemma update_fixpoint_witness :
  readme_heap !! 1%positive = Some readme_inst /\ is_init readme_inst = true /\
  (k_rise readme_inst >? zero) = true /\ (k_fall readme_inst >? zero) = true /\
  rate_limiter_update (Some 1%positive) (x_prev readme_inst) readme_heap
  = Some (x_prev readme_inst, readme_heap).
Proof.
  assert (H1 : readme_heap !! 1%positive = Some readme_inst)
    by (vm_compute; reflexivity).
  assert (H2 : is_init readme_inst = true) by reflexivity.
  assert (H3 : (k_rise readme_inst >? zero) = true) by (vm_compute; reflexivity).
  assert (H4 : (k_fall readme_inst >? zero) = true) by (vm_compute; reflexivity).
  refine (conj H1 (conj H2 (conj H3 (conj H4 _)))).
  exact (update_fixpoint readme_heap 1%positive readme_inst H1 H2 H3 H4).
Defined.

End Update.

(** ** Creation and reconfiguration *)

Section Create.

Local Open Scope f32_scope.

Lemma le_zero_not_gt (a : float32_t) : (a <=? zero) = true -> (a >? zero) = false.
Proof.
  unfold le, gt, SFleb. destruct (SFcompare a zero) as [[]|]; congruence.
Qed.

(** A period that is not strictly positive (also a NaN) is refused, and
    the caller's handle variable is not written. *)
Lemma init_bad_period (old : p_rate_limiter) (rise_rate fall_rate dt0 : float32_t)
    (m : malloc_result) (h : heap) :
  (dt0 >? zero) = false ->
  rate_limiter_init (Some old) rise_rate fall_rate dt0 m h
  = (eRATE_LIMITER_ERROR, Some old, h).
Proof. intros Hdt. unfold rate_limiter_init. rewrite Hdt. reflexivity. Qed.

Lemma init_null_ref (rise_rate fall_rate dt0 : float32_t) (m : malloc_result)
    (h : heap) :
  rate_limiter_init None rise_rate fall_rate dt0 m h
  = (eRATE_LIMITER_ERROR, None, h).
Proof. reflexivity. Qed.

(** When the allocation fails the handle is [NULL], the heap is as before,
    and the status is the one the function started with. *)
Lemma init_malloc_failure (old : p_rate_limiter) (rise_rate fall_rate dt0 : float32_t)
    (h : heap) :
  (dt0 >? zero) = true ->
  rate_limiter_init (Some old) rise_rate fall_rate dt0 None h
  = (eRATE_LIMITER_OK, Some NULL, h).
Proof. intros Hdt. unfold rate_limiter_init. rewrite Hdt. reflexivity. Qed.

(** The status depends on the arguments alone, never on [malloc]. *)
Lemma init_status_ok_iff (p_rl_inst : handle_ref) (rise_rate fall_rate dt0 : float32_t)
    (m : malloc_result) (h : heap) :
  (rate_limiter_init p_rl_inst rise_rate fall_rate dt0 m h).1.1 = eRATE_LIMITER_OK
  <-> p_rl_inst <> None /\ (dt0 >? zero) = true.
Proof.
  unfold rate_limiter_init.
  destruct p_rl_inst as [old|]; [|simpl; split; [discriminate|intros [[] _]; reflexivity]].
  destruct (dt0 >? zero); [destruct m as [[l blk]|]|]; simpl;
    split; try discriminate; try (intros [_ ?]; discriminate); auto.
Qed.

(** Claim C2, at the input where the code departs from it: period 0.01,
    a valid output parameter, and [malloc] returning [NULL].  The init
    function reports [eRATE_LIMITER_OK] and leaves the handle [NULL]. *)
Theorem init_malloc_failure_reports_ok :
  (f_0_01 >? zero) = true /\
  rate_limiter_init (Some NULL) f_1 f_0_5 f_0_01 None ∅
  = (eRATE_LIMITER_OK, Some NULL, ∅).
Proof. split; vm_compute; reflexivity. Qed.

(** Claim C3.  With a strictly positive period and a successful
    allocation, the init function returns OK, hands the new block to the
    caller, and the block holds [k_rise = rise_rate * dt],
    [k_fall = fall_rate * dt] (binary32 products), [x_prev = 0.0f],
    the period [dt], and a true flag, whatever the block held before. *)
Theorem init_stores_instance (old : p_rate_limiter)
    (rise_rate fall_rate dt0 : float32_t) (l : addr) (blk : rate_limiter_t)
    (h : heap) :
  (dt0 >? zero) = true ->
  exists s : rate_limiter_t,
    rate_limiter_init (Some old) rise_rate fall_rate dt0 (Some (l, blk)) h
    = (eRATE_LIMITER_OK, Some (Some l), <[l := s]> h)
    /\ k_rise s = rise_rate * dt0
    /\ k_fall s = fall_rate * dt0
    /\ x_prev s = zero
    /\ dt s = dt0
    /\ is_init s = true.
Proof.
  intros Hdt.
  exists (mk_rate_limiter zero (rise_rate * dt0) (fall_rate * dt0) dt0 true).
  split; [apply init_success, Hdt|]. repeat split.
Qed.

Lemma init_stores_instance_witness :
  (f_0_01 >? zero) = true /\
  exists s : rate_limiter_t,
    rate_limiter_init (Some NULL) f_1 f_0_5 f_0_01 (Some (1%positive, junk)) ∅
    = (eRATE_LIMITER_OK, Some (Some 1%positive), <[1%positive := s]> ∅)
    /\ k_rise s = f_1 * f_0_01
    /\ k_fall s = f_0_5 * f_0_01
    /\ x_prev s = zero
    /\ dt s = f_0_01
    /\ is_init s = true.
Proof.
  assert (H : (f_0_01 >? zero) = true) by (vm_compute; reflexivity).
  refine (conj H _).
  exact (init_stores_instance NULL f_1 f_0_5 f_0_01 1%positive junk ∅ H).
Defined.

(** Claim C4.  With a strictly positive period the init function does the
    same whatever handle the caller's variable holds, [NULL] or not: the
    variable receives what [malloc] returns, and a block that was obtained
    is initialized. *)
Theorem init_ignores_incoming_handle (old : p_rate_limiter)
    (rise_rate fall_rate dt0 : float32_t) (m : malloc_result) (h : heap) :
  (dt0 >? zero) = true ->
  rate_limiter_init (Some old) rise_rate fall_rate dt0 m h
  = rate_limiter_init (Some NULL) rise_rate fall_rate dt0 m h
  /\ (rate_limiter_init (Some old) rise_rate fall_rate dt0 m h).1.2
     = Some (fst <$> m)
  /\ (forall (l : addr) (blk : rate_limiter_t), m = Some (l, blk) ->
        (rate_limiter_init (Some old) rise_rate fall_rate dt0 m h).2 !! l
        = Some (mk_rate_limiter zero (rise_rate * dt0) (fall_rate * dt0) dt0 true)).
Proof.
  intros Hdt. split; [|split].
  - unfold rate_limiter_init. rewrite Hdt. reflexivity.
  - unfold rate_limiter_init. rewrite Hdt. destruct m as [[l blk]|]; reflexivity.
  - intros l blk ->. rewrite (init_success old _ _ _ l blk h Hdt). simpl.
    apply lookup_insert_eq.
Qed.

Lemma init_ignores_incoming_handle_witness :
  (f_0_01 >? zero) = true /\
  rate_limiter_init (Some (Some 7%positive)) f_1 f_0_5 f_0_01 (Some (1%positive, junk)) ∅
  = rate_limiter_init (Some NULL) f_1 f_0_5 f_0_01 (Some (1%positive, junk)) ∅
  /\ (rate_limiter_init (Some (Some 7%positive)) f_1 f_0_5 f_0_01
        (Some (1%positive, junk)) ∅).1.2
     = Some (fst <$> Some (1%positive, junk))
  /\ (forall (l : addr) (blk : rate_limiter_t),
        Some (1%positive, junk) = Some (l, blk) ->
        (rate_limiter_init (Some (Some 7%positive)) f_1 f_0_5 f_0_01
           (Some (1%positive, junk)) ∅).2 !! l
        = Some (mk_rate_limiter zero (f_1 * f_0_01) (f_0_5 * f_0_01) f_0_01 true)).
Proof.
  assert (H : (f_0_01 >? zero) = true) by (vm_compute; reflexivity).
  refine (conj H _).
  exact (init_ignores_incoming_handle (Some 7%positive) f_1 f_0_5 f_0_01
           (Some (1%positive, junk)) ∅ H).
Defined.

(** Claim C6.  On an initialized instance the reconfiguration stores
    [k_rise = rise_rate * dt] and [k_fall = fall_rate * dt] with the period
    the instance holds, changes nothing else, and returns OK; on a [NULL]
    handle and on an instance whose flag is false it returns ERROR and
    changes nothing. *)
Theorem change_rate_recomputes (h : heap) (rise_rate fall_rate : float32_t) :
  (forall (l : addr) (s : rate_limiter_t),
     h !! l = Some s -> is_init s = true ->
     rate_limiter_change_rate (Some l) rise_rate fall_rate h
     = Some (eRATE_LIMITER_OK,
             <[l := mk_rate_limiter (x_prev s) (rise_rate * dt s)
                      (fall_rate * dt s) (dt s) true]> h))
  /\ rate_limiter_change_rate NULL rise_rate fall_rate h
     = Some (eRATE_LIMITER_ERROR, h)
  /\ (forall (l : addr) (s : rate_limiter_t),
        h !! l = Some s -> is_init s = false ->
        rate_limiter_change_rate (Some l) rise_rate fall_rate h
        = Some (eRATE_LIMITER_ERROR, h)).
Proof.
  split; [|split].
  - intros l s Hl Hi. rewrite (change_rate_init h l s _ _ Hl Hi), Hi. reflexivity.
  - reflexivity.
  - intros l s Hl Hi. unfold rate_limiter_change_rate. rewrite Hl, Hi. reflexivity.
Qed.

Lemma change_rate_recomputes_witness :
  readme_heap !! 1%positive = Some readme_inst /\ is_init readme_inst = true /\
  ({[2%positive := junk]} : heap) !! 2%positive = Some junk /\ is_init junk = false /\
  rate_limiter_change_rate (Some 1%positive) f_2 f_1 readme_heap
  = Some (eRATE_LIMITER_OK,
          <[1%positive := mk_rate_limiter (x_prev readme_inst) (f_2 * dt readme_inst)
                            (f_1 * dt readme_inst) (dt readme_inst) true]> readme_heap) /\
  rate_limiter_change_rate NULL f_2 f_1 readme_heap = Some (eRATE_LIMITER_ERROR, readme_heap) /\
  rate_limiter_change_rate (Some 2%positive) f_2 f_1 {[2%positive := junk]}
  = Some (eRATE_LIMITER_ERROR, {[2%positive := junk]}).
Proof.
  assert (H1 : readme_heap !! 1%positive = Some readme_inst)
    by (vm_compute; reflexivity).
  assert (H2 : is_init readme_inst = true) by reflexivity.
  assert (H3 : ({[2%positive := junk]} : heap) !! 2%positive = Some junk)
    by (vm_compute; reflexivity).
  assert (H4 : is_init junk = false) by reflexivity.
  refine (conj H1 (conj H2 (conj H3 (conj H4 _)))).
  destruct (change_rate_recomputes readme_heap f_2 f_1) as (A & B & _).
  destruct (change_rate_recomputes {[2%positive := junk]} f_2 f_1) as (_ & _ & C).
  exact (conj (A 1%positive readme_inst H1 H2) (conj B (C 2%positive junk H3 H4))).
Defined.

End Create.

(** ** Invariants along call sequences *)

Section Sequences.

Local Open Scope f32_scope.

Lemma do_call_ready (dt0 : float32_t) (l : addr) (c : call) (h : heap)
    (s : rate_limiter_t) :
  h !! l = Some s -> dt s = dt0 -> is_init s = true ->
  exists (h' : heap) (s' : rate_limiter_t),
    do_call (Some l) c h = Some h' /\ h' !! l = Some s' /\
    leaves_alone c s s' /\
    (forall l' : addr, l' <> l -> h' !! l' = h !! l').
Proof.
  intros Hl Hdt Hi. destruct c as [x|rr fr|]; cbn [do_call].
  - rewrite (update_init h l s x Hl Hi). simpl.
    eexists _, _. split; [reflexivity|]. split; [apply lookup_insert_eq|].
    split; [repeat split|].
    intros l' Hne. apply lookup_insert_ne. congruence.
  - rewrite (change_rate_init h l s rr fr Hl Hi). simpl.
    eexists _, _. split; [reflexivity|]. split; [apply lookup_insert_eq|].
    split; [repeat split|].
    intros l' Hne. apply lookup_insert_ne. congruence.
  - unfold rate_limiter_is_init. rewrite Hl. simpl.
    exists h, s. repeat split; auto.
Qed.

Lemma do_calls_ready (dt0 : float32_t) (l : addr) (cs : list call) (h : heap) :
  ready dt0 l h ->
  exists h' : heap, do_calls (Some l) cs h = Some h' /\ ready dt0 l h'.
Proof.
  revert h. induction cs as [|c cs IH]; intros h Hr.
  - exists h. split; [reflexivity|assumption].
  - destruct Hr as (s & Hl & Hdt & Hi).
    destruct (do_call_ready dt0 l c h s Hl Hdt Hi) as (h' & s' & E & Hl' & (Ed & Ei & _) & _).
    simpl. rewrite E. apply IH. exists s'. repeat split; congruence.
Qed.

(** Claim C7.  After a successful creation with period [dt0], run any
    sequence [cs] of update, change-rate and query calls on the instance,
    then one more call [c].  Every call returns; before and after [c] the
    instance holds the period [dt0], which is strictly positive, and a
    true flag; an update leaves both increments as they were, a
    change-rate and a query leave the previous output as it was. *)
Theorem lifetime_invariants (old : p_rate_limiter)
    (rise_rate fall_rate dt0 : float32_t) (l : addr) (blk : rate_limiter_t)
    (h : heap) (cs : list call) (c : call) :
  (dt0 >? zero) = true ->
  exists (h1 h2 : heap) (s1 s2 : rate_limiter_t),
    do_calls (Some l) cs
      (rate_limiter_init (Some old) rise_rate fall_rate dt0 (Some (l, blk)) h).2
    = Some h1
    /\ h1 !! l = Some s1
    /\ do_call (Some l) c h1 = Some h2
    /\ h2 !! l = Some s2
    /\ dt s1 = dt0 /\ dt s2 = dt0 /\ (dt s2 >? zero) = true
    /\ is_init s1 = true /\ is_init s2 = true
    /\ leaves_alone c s1 s2.
Proof.
  intros Hdt. rewrite (init_success old _ _ _ l blk h Hdt). simpl.
  destruct (do_calls_ready dt0 l cs
              (<[l := mk_rate_limiter zero (rise_rate * dt0) (fall_rate * dt0) dt0 true]> h))
    as (h1 & E1 & s1 & Hl1 & Hd1 & Hi1).
  { eexists. split; [apply lookup_insert_eq|]. split; reflexivity. }
  destruct (do_call_ready dt0 l c h1 s1 Hl1 Hd1 Hi1)
    as (h2 & s2 & E2 & Hl2 & Hla & _).
  exists h1, h2, s1, s2.
  pose proof Hla as (Ed & Ei & _).
  repeat split; try assumption; try congruence.
  - destruct Hla as (_ & _ & Hc). exact Hc.
Qed.

End Sequences.

(** ** Statefulness and replay *)

Section Replay.

Local Open Scope f32_scope.

Lemma lifetime_invariants_witness :
  (f_0_01 >? zero) = true /\
  exists (h1 h2 : heap) (s1 s2 : rate_limiter_t),
    do_calls (Some 1%positive)
      [CallUpdate f_1; CallChangeRate f_2 f_1; CallIsInit; CallUpdate zero]
      (rate_limiter_init (Some NULL) f_1 f_0_5 f_0_01 (Some (1%positive, junk)) ∅).2
    = Some h1
    /\ h1 !! 1%positive = Some s1
    /\ do_call (Some 1%positive) (CallChangeRate f_1 f_1) h1 = Some h2
    /\ h2 !! 1%positive = Some s2
    /\ dt s1 = f_0_01 /\ dt s2 = f_0_01 /\ (dt s2 >? zero) = true
    /\ is_init s1 = true /\ is_init s2 = true
    /\ leaves_alone (CallChangeRate f_1 f_1) s1 s2.
Proof.
  assert (H : (f_0_01 >? zero) = true) by (vm_compute; reflexivity).
  refine (conj H _).
  exact (lifetime_invariants NULL f_1 f_0_5 f_0_01 1%positive junk ∅
           [CallUpdate f_1; CallChangeRate f_2 f_1; CallIsInit; CallUpdate zero]
           (CallChangeRate f_1 f_1) H).
Defined.

(** [limit] reads the previous output and the two increments only. *)
Lemma limit_ext (s1 s2 : rate_limiter_t) (x : float32_t) :
  x_prev s1 = x_prev s2 -> k_rise s1 = k_rise s2 -> k_fall s1 = k_fall s2 ->
  limit s1 x = limit s2 x.
Proof. intros E1 E2 E3. unfold limit. rewrite E1, E2, E3. reflexivity. Qed.

Lemma update_seq_replay (xs : list float32_t) :
  forall (h1 h2 : heap) (l1 l2 : addr) (s1 s2 : rate_limiter_t),
    h1 !! l1 = Some s1 -> h2 !! l2 = Some s2 ->
    x_prev s1 = x_prev s2 -> k_rise s1 = k_rise s2 -> k_fall s1 = k_fall s2 ->
    is_init s1 = is_init s2 ->
    exists (ys : list float32_t) (h1' h2' : heap),
      update_seq (Some l1) xs h1 = Some (ys, h1')
      /\ update_seq (Some l2) xs h2 = Some (ys, h2')
      /\ length ys = length xs.
Proof.
  induction xs as [|x xs IH]; intros h1 h2 l1 l2 s1 s2 Hl1 Hl2 Ep Er Ef Ei.
  - exists [], h1, h2. repeat split.
  - cbn [update_seq]. destruct (is_init s1) eqn:Hi1; symmetry in Ei.
    + rewrite (update_init h1 l1 s1 x Hl1 Hi1), (update_init h2 l2 s2 x Hl2 Ei).
      rewrite <- (limit_ext s1 s2 x Ep Er Ef).
      destruct (IH (<[l1 := set_x_prev (limit s1 x) s1]> h1)
                   (<[l2 := set_x_prev (limit s1 x) s2]> h2)
                   l1 l2 (set_x_prev (limit s1 x) s1) (set_x_prev (limit s1 x) s2))
        as (ys & h1' & h2' & E1 & E2 & Hlen);
        try apply lookup_insert_eq; try assumption; try reflexivity.
      { simpl. congruence. }
      rewrite E1, E2. exists (limit s1 x :: ys), h1', h2'.
      repeat split. simpl. congruence.
    + rewrite (update_not_init h1 l1 s1 x Hl1 Hi1), (update_not_init h2 l2 s2 x Hl2 Ei).
      destruct (IH h1 h2 l1 l2 s1 s2) as (ys & h1' & h2' & E1 & E2 & Hlen);
        try assumption; try congruence.
      rewrite E1, E2. exists (zero :: ys), h1', h2'.
      repeat split. simpl. congruence.
Qed.

(** Claim C8.  The value an update returns on an initialized instance is
    the previous output the instance holds afterwards, so the next call
    starts from it; and two runs of updates over the same inputs, on
    instances that agree on previous output, increments and flag (in any
    heaps, at any addresses, with any periods), both return and give the
    same outputs, one per input. *)
Theorem update_replay (xs : list float32_t) (h1 h2 : heap) (l1 l2 : addr)
    (s1 s2 : rate_limiter_t) :
  h1 !! l1 = Some s1 -> h2 !! l2 = Some s2 ->
  x_prev s1 = x_prev s2 -> k_rise s1 = k_rise s2 -> k_fall s1 = k_fall s2 ->
  is_init s1 = is_init s2 ->
  (is_init s1 = true ->
   forall x : float32_t, exists (y : float32_t) (h1' : heap),
     rate_limiter_update (Some l1) x h1 = Some (y, h1')
     /\ x_prev <$> h1' !! l1 = Some y
     /\ rate_limiter_update (Some l1) x h1' = Some (limit (set_x_prev y s1) x,
          <[l1 := set_x_prev (limit (set_x_prev y s1) x) (set_x_prev y s1)]> h1'))
  /\ exists (ys : list float32_t) (h1' h2' : heap),
       update_seq (Some l1) xs h1 = Some (ys, h1')
       /\ update_seq (Some l2) xs h2 = Some (ys, h2')
       /\ length ys = length xs.
Proof.
  intros Hl1 Hl2 Ep Er Ef Ei. split.
  - intros Hi x. exists (limit s1 x), (<[l1 := set_x_prev (limit s1 x) s1]> h1).
    split; [apply update_init; assumption|].
    split; [rewrite lookup_insert_eq; reflexivity|].
    apply update_init; [apply lookup_insert_eq|exact Hi].
  - apply (update_seq_replay xs h1 h2 l1 l2 s1 s2); assumption.
Qed.

Lemma update_replay_witness :
  readme_heap !! 1%positive = Some readme_inst /\
  (<[5%positive := set_dt f_2 readme_inst]> readme_heap) !! 5%positive
    = Some (set_dt f_2 readme_inst) /\
  x_prev readme_inst = x_prev (set_dt f_2 readme_inst) /\
  k_rise readme_inst = k_rise (set_dt f_2 readme_inst) /\
  k_fall readme_inst = k_fall (set_dt f_2 readme_inst) /\
  is_init readme_inst = is_init (set_dt f_2 readme_inst) /\
  (is_init readme_inst = true ->
   forall x : float32_t, exists (y : float32_t) (h1' : heap),
     rate_limiter_update (Some 1%positive) x readme_heap = Some (y, h1')
     /\ x_prev <$> h1' !! 1%positive = Some y
     /\ rate_limiter_update (Some 1%positive) x h1'
        = Some (limit (set_x_prev y readme_inst) x,
                <[1%positive := set_x_prev (limit (set_x_prev y readme_inst) x)
                                  (set_x_prev y readme_inst)]> h1'))
  /\ exists (ys : list float32_t) (h1' h2' : heap),
       update_seq (Some 1%positive) [f_1; f_1; zero] readme_heap = Some (ys, h1')
       /\ update_seq (Some 5%positive) [f_1; f_1; zero]
            (<[5%positive := set_dt f_2 readme_inst]> readme_heap) = Some (ys, h2')
       /\ length ys = length [f_1; f_1; zero].
Proof.
  assert (H1 : readme_heap !! 1%positive = Some readme_inst)
    by (vm_compute; reflexivity).
  assert (H2 : (<[5%positive := set_dt f_2 readme_inst]> readme_heap) !! 5%positive
               = Some (set_dt f_2 readme_inst)) by (vm_compute; reflexivity).
  refine (conj H1 (conj H2 (conj eq_refl (conj eq_refl (conj eq_refl (conj eq_refl _)))))).
  exact (update_replay [f_1; f_1; zero] readme_heap
           (<[5%positive := set_dt f_2 readme_inst]> readme_heap)
           1%positive 5%positive readme_inst (set_dt f_2 readme_inst)
           H1 H2 eq_refl eq_refl eq_refl eq_refl).
Defined.

(** The scenario of the specification: rise 1.0, fall 0.5, period 0.01,
    inputs 1.0, 1.0, 0.0, 0.016 give 0.01, 0.02, 0.015, 0.016, each the
    binary32 value nearest to the decimal. *)
Example readme_scenario :
  fst <$> update_seq (Some 1%positive)
            [f_1; f_1; zero; of_Z 16 / of_Z 1000] readme_heap
  = Some [of_Z 1 / of_Z 100; of_Z 2 / of_Z 100; of_Z 15 / of_Z 1000;
          of_Z 16 / of_Z 1000].
Proof. vm_compute. reflexivity. Qed.

End Replay.

(** ** The output stays within the slew interval *)

Section SlewInterval.

Local Open Scope f32_scope.

Local Abbreviation B := (Fmt.B2Z F32.prec F32.emax).
Local Abbreviation fin32 := (Fmt.fin F32.prec F32.emax).

Lemma prec_gt_0_32 : (0 < F32.prec)%Z.
Proof. reflexivity. Qed.

Lemma prec_lt_emax_32 : (F32.prec < F32.emax)%Z.
Proof. reflexivity. Qed.

Lemma finite32_fin (a : float32_t) :
  finite32 a = true -> fin32 a.
Proof. unfold finite32, Fmt.fin, valid. intros H. apply andb_true_iff in H. exact H. Qed.

Lemma ge_as_le (a b : float32_t) : (a >=? b) = (b <=? a).
Proof.
  unfold ge, le, SFleb. rewrite (SFcompare_antisym a b).
  destruct (SFcompare a b) as [[]|]; reflexivity.
Qed.

Lemma le_refl_not_nan (a : float32_t) : a <> nan -> (a <=? a) = true.
Proof.
  unfold le, SFleb, nan.
  destruct a as [s|[]| |[] m e]; cbn [SFcompare]; try congruence; try reflexivity;
    intros _; rewrite Z.compare_refl, Pos.compare_cont_refl; reflexivity.
Qed.

(** Transitivity through a finite value. *)
Lemma le_trans_finite (a p b : float32_t) :
  valid a = true -> valid b = true -> finite32 p = true ->
  (a <=? p) = true -> (p <=? b) = true -> (a <=? b) = true.
Proof.
  intros Va Vb Hp Hap Hpb. pose proof (finite32_fin p Hp) as Fp.
  assert (Hfa : is_finite a = true -> fin32 a) by (split; assumption).
  assert (Hfb : is_finite b = true -> fin32 b) by (split; assumption).
  unfold le in *.
  destruct (is_finite a) eqn:Fa, (is_finite b) eqn:Fb.
  - rewrite (SFleb_B2Z F32.prec F32.emax prec_gt_0_32) in * by auto.
    apply Z.leb_le. apply Z.leb_le in Hap, Hpb. lia.
  - destruct p as [sp|sp| |sp mp ep]; try discriminate;
      destruct b as [sb|[]| |sb mb eb]; try discriminate;
      destruct a as [sa|sa| |sa ma ea]; try discriminate; try reflexivity;
      destruct sp; discriminate.
  - destruct p as [sp|sp| |sp mp ep]; try discriminate;
      destruct a as [sa|[]| |sa ma ea]; try discriminate;
      destruct b as [sb|sb| |sb mb eb]; try discriminate; try reflexivity;
      destruct sp; discriminate.
  - destruct p as [sp|sp| |sp mp ep]; try discriminate;
      destruct a as [sa|[]| |sa ma ea]; try discriminate;
      destruct b as [sb|[]| |sb mb eb]; try discriminate; try reflexivity;
      destruct sp; discriminate.
Qed.

(** The three candidate outputs all lie between [p - f] and [p + r]. *)
Lemma limit_within (s : rate_limiter_t) (x : float32_t) :
  finite32 x = true -> finite32 (x_prev s) = true ->
  finite32 (k_rise s) = true -> finite32 (k_fall s) = true ->
  (k_rise s >=? zero) = true -> (k_fall s >=? zero) = true ->
  (x_prev s - k_fall s <=? limit s x) = true /\
  (limit s x <=? x_prev s + k_rise s) = true.
Proof.
  intros Hx Hp Hr Hf Hr0 Hf0.
  pose proof (finite32_fin _ Hx) as Fx. pose proof (finite32_fin _ Hp) as Fp.
  pose proof (finite32_fin _ Hr) as Fr. pose proof (finite32_fin _ Hf) as Ff.
  pose proof (fin_opp _ _ _ Ff) as Fnf.
  pose proof (fin_zero F32.prec F32.emax false) as Fz.
  destruct (SFsub_brackets _ _ prec_gt_0_32 prec_lt_emax_32 (x_prev s) (k_fall s) Fp Ff)
    as (Vlo & Nlo & Llo & Ulo).
  destruct (SFadd_brackets _ _ prec_gt_0_32 prec_lt_emax_32 (x_prev s) (k_rise s) Fp Fr)
    as (Vhi & Nhi & Lhi & Uhi).
  destruct (SFsub_brackets _ _ prec_gt_0_32 prec_lt_emax_32 x (x_prev s) Fx Fp)
    as (Vdx & Ndx & Ldx & Udx).
  fold sub in *. fold add in *. fold le in *.
  assert (HR : (0 <= B (k_rise s))%Z).
  { rewrite ge_as_le in Hr0. unfold le in Hr0.
    rewrite (SFleb_B2Z _ _ prec_gt_0_32 zero (k_rise s) Fz Fr) in Hr0.
    apply Z.leb_le in Hr0. exact Hr0. }
  assert (HF : (0 <= B (k_fall s))%Z).
  { rewrite ge_as_le in Hf0. unfold le in Hf0.
    rewrite (SFleb_B2Z _ _ prec_gt_0_32 zero (k_fall s) Fz Ff) in Hf0.
    apply Z.leb_le in Hf0. exact Hf0. }
  assert (Hlop : (x_prev s - k_fall s <=? x_prev s) = true) by (apply Ulo; [exact Fp|lia]).
  assert (Hphi : (x_prev s <=? x_prev s + k_rise s) = true) by (apply Lhi; [exact Fp|lia]).
  assert (Hlohi : (x_prev s - k_fall s <=? x_prev s + k_rise s) = true)
    by (apply (le_trans_finite _ (x_prev s)); assumption).
  unfold limit.
  destruct (x - x_prev s >=? k_rise s) eqn:Hge.
  - split; [exact Hlohi|apply le_refl_not_nan, Nhi].
  - destruct (x - x_prev s <=? - k_fall s) eqn:Hle.
    + split; [apply le_refl_not_nan, Nlo|exact Hlohi].
    + split.
      * apply Ulo; [exact Fx|].
        destruct (Z.le_gt_cases (B (x_prev s) - B (k_fall s)) (B x)) as [|Hgt]; [assumption|].
        exfalso. rewrite (Udx (- k_fall s) Fnf) in Hle; [discriminate|].
        unfold neg. rewrite B2Z_opp. lia.
      * apply Lhi; [exact Fx|].
        destruct (Z.le_gt_cases (B x) (B (x_prev s) + B (k_rise s))) as [|Hgt]; [assumption|].
        exfalso. rewrite ge_as_le, (Ldx (k_rise s) Fr) in Hge; [discriminate|].
        lia.
Qed.

(** Transitivity of [<=] on well-formed values. *)
Lemma le_trans_valid (a m b : float32_t) :
  valid a = true -> valid m = true -> valid b = true ->
  (a <=? m) = true -> (m <=? b) = true -> (a <=? b) = true.
Proof.
  intros Va Vm Vb Ham Hmb. destruct (is_finite m) eqn:Fm.
  - apply (le_trans_finite a m b); try assumption.
    unfold finite32. rewrite Vm, Fm. reflexivity.
  - unfold le in *.
    destruct m as [sm|[]| |sm mm em]; try discriminate;
      destruct a as [sa|[]| |[] ma ea]; try discriminate;
      destruct b as [sb|[]| |[] mb eb]; try discriminate; reflexivity.
Qed.

Lemma limit_valid (s : rate_limiter_t) (x : float32_t) :
  finite32 x = true -> finite32 (x_prev s) = true ->
  finite32 (k_rise s) = true -> finite32 (k_fall s) = true ->
  valid (limit s x) = true.
Proof.
  intros Hx Hp Hr Hf.
  pose proof (finite32_fin _ Hx) as Fx. pose proof (finite32_fin _ Hp) as Fp.
  pose proof (finite32_fin _ Hr) as Fr. pose proof (finite32_fin _ Hf) as Ff.
  destruct (SFsub_brackets _ _ prec_gt_0_32 prec_lt_emax_32 (x_prev s) (k_fall s) Fp Ff)
    as (Vlo & _).
  destruct (SFadd_brackets _ _ prec_gt_0_32 prec_lt_emax_32 (x_prev s) (k_rise s) Fp Fr)
    as (Vhi & _).
  unfold limit.
  destruct (x - x_prev s >=? k_rise s); [exact Vhi|].
  destruct (x - x_prev s <=? - k_fall s); [exact Vlo|apply Fx].
Qed.

(** The output against the exact sum and difference: it is at most every
    value of the format that is at least the exact [p + r], and at least
    every value of the format that is at most the exact [p - f]. *)
Lemma limit_exact_bounds (s : rate_limiter_t) (x : float32_t) :
  finite32 x = true -> finite32 (x_prev s) = true ->
  finite32 (k_rise s) = true -> finite32 (k_fall s) = true ->
  (k_rise s >=? zero) = true -> (k_fall s >=? zero) = true ->
  (forall c : float32_t, finite32 c = true ->
     (exact32 (x_prev s) + exact32 (k_rise s) <= exact32 c)%Z ->
     (limit s x <=? c) = true) /\
  (forall c : float32_t, finite32 c = true ->
     (exact32 c <= exact32 (x_prev s) - exact32 (k_fall s))%Z ->
     (c <=? limit s x) = true).
Proof.
  intros Hx Hp Hr Hf Hr0 Hf0.
  destruct (limit_within s x Hx Hp Hr Hf Hr0 Hf0) as [Hlo Hhi].
  pose proof (limit_valid s x Hx Hp Hr Hf) as Vy.
  pose proof (finite32_fin _ Hp) as Fp.
  pose proof (finite32_fin _ Hr) as Fr. pose proof (finite32_fin _ Hf) as Ff.
  destruct (SFsub_brackets _ _ prec_gt_0_32 prec_lt_emax_32 (x_prev s) (k_fall s) Fp Ff)
    as (Vlo & _ & Llo & _).
  destruct (SFadd_brackets _ _ prec_gt_0_32 prec_lt_emax_32 (x_prev s) (k_rise s) Fp Fr)
    as (Vhi & _ & _ & Uhi).
  unfold exact32. split; intros c Hc H; pose proof (finite32_fin c Hc) as Fc.
  - apply (le_trans_valid _ (x_prev s + k_rise s)); try assumption; [apply Fc|].
    apply Uhi; assumption.
  - apply (le_trans_valid _ (x_prev s - k_fall s)); try assumption; [apply Fc|].
    apply Llo; assumption.
Qed.

(** Claim C9, as the code has it.  For an initialized instance whose
    previous output [p] and increments [r], [f] are finite binary32 values
    with [r >= 0] and [f >= 0], and every finite input [x], the update
    returns a value [y], stores it as the new previous output, and
    [p - f <= y <= p + r], the bounds being the binary32 (rounded)
    difference and sum.  Against the exact sum and difference: [y] is at
    most every binary32 value that is at least the exact [p + r], and at
    least every binary32 value that is at most the exact [p - f].  So the
    exact change [y - p] is bounded by the increments only up to the
    rounding of the bounds: it is at most [r] upward and [f] downward
    wherever the exact [p + r], [p - f] are binary32 values, and can
    exceed them otherwise. *)
Theorem update_within_slew_interval (h : heap) (l : addr) (s : rate_limiter_t)
    (x : float32_t) :
  h !! l = Some s -> is_init s = true ->
  finite32 x = true -> finite32 (x_prev s) = true ->
  finite32 (k_rise s) = true -> finite32 (k_fall s) = true ->
  (k_rise s >=? zero) = true -> (k_fall s >=? zero) = true ->
  exists (y : float32_t) (h' : heap),
    rate_limiter_update (Some l) x h = Some (y, h')
    /\ x_prev <$> h' !! l = Some y
    /\ (x_prev s - k_fall s <=? y) = true
    /\ (y <=? x_prev s + k_rise s) = true
    /\ (forall c : float32_t, finite32 c = true ->
          (exact32 (x_prev s) + exact32 (k_rise s) <= exact32 c)%Z ->
          (y <=? c) = true)
    /\ (forall c : float32_t, finite32 c = true ->
          (exact32 c <= exact32 (x_prev s) - exact32 (k_fall s))%Z ->
          (c <=? y) = true).
Proof.
  intros Hl Hi Hx Hp Hr Hf Hr0 Hf0.
  exists (limit s x), (<[l := set_x_prev (limit s x) s]> h).
  split; [apply update_init; assumption|].
  split; [rewrite lookup_insert_eq; reflexivity|].
  destruct (limit_within s x Hx Hp Hr Hf Hr0 Hf0) as [Hlo Hhi].
  destruct (limit_exact_bounds s x Hx Hp Hr Hf Hr0 Hf0) as [Hup Hdown].
  repeat split; assumption.
Qed.

Lemma update_within_slew_interval_witness :
  rounding_heap !! 1%positive = Some rounding_inst /\ is_init rounding_inst = true /\
  finite32 f_262144 = true /\ finite32 (x_prev rounding_inst) = true /\
  finite32 (k_rise rounding_inst) = true /\ finite32 (k_fall rounding_inst) = true /\
  (k_rise rounding_inst >=? zero) = true /\ (k_fall rounding_inst >=? zero) = true /\
  exists (y : float32_t) (h' : heap),
    rate_limiter_update (Some 1%positive) f_262144 rounding_heap = Some (y, h')
    /\ x_prev <$> h' !! 1%positive = Some y
    /\ (x_prev rounding_inst - k_fall rounding_inst <=? y) = true
    /\ (y <=? x_prev rounding_inst + k_rise rounding_inst) = true
    /\ (forall c : float32_t, finite32 c = true ->
          (exact32 (x_prev rounding_inst) + exact32 (k_rise rounding_inst) <= exact32 c)%Z ->
          (y <=? c) = true)
    /\ (forall c : float32_t, finite32 c = true ->
          (exact32 c <= exact32 (x_prev rounding_inst) - exact32 (k_fall rounding_inst))%Z ->
          (c <=? y) = true).
Proof.
  assert (H1 : rounding_heap !! 1%positive = Some rounding_inst)
    by (vm_compute; reflexivity).
  assert (H2 : is_init rounding_inst = true) by reflexivity.
  assert (H3 : finite32 f_262144 = true) by (vm_compute; reflexivity).
  assert (H4 : finite32 (x_prev rounding_inst) = true) by (vm_compute; reflexivity).
  assert (H5 : finite32 (k_rise rounding_inst) = true) by (vm_compute; reflexivity).
  assert (H6 : finite32 (k_fall rounding_inst) = true) by (vm_compute; reflexivity).
  assert (H7 : (k_rise rounding_inst >=? zero) = true) by (vm_compute; reflexivity).
  assert (H8 : (k_fall rounding_inst >=? zero) = true) by (vm_compute; reflexivity).
  refine (conj H1 (conj H2 (conj H3 (conj H4 (conj H5 (conj H6 (conj H7 (conj H8 _)))))))).
  exact (update_within_slew_interval rounding_heap 1%positive rounding_inst f_262144
           H1 H2 H3 H4 H5 H6 H7 H8).
Defined.

(** Claim C9 as stated fails in two ways.

    With finite values the step can exceed the increment.  The README
    instance (increments 0.01 and 0.005) brought to the previous output
    131072 and given the input 262144 returns [131072 + 0.01] rounded to
    binary32, which is 131072.015625: the output has risen by 0.015625,
    more than [k_rise], in binary32 and exactly.

    With infinite values the output leaves every interval.  Creating an
    instance with both rates the largest finite value and period 2.0 makes
    both increments [+infinity]; the inputs [max_float], [- max_float]
    bring the previous output to [-infinity]; on the next input [0.0] the
    update returns [-infinity + infinity], a NaN. *)
Lemma update_slew_bound_counterexample :
  (do_calls (Some 1%positive) rounding_calls readme_heap = Some rounding_heap /\
   rounding_heap !! 1%positive = Some rounding_inst /\
   is_init rounding_inst = true /\
   finite32 f_262144 = true /\ finite32 (x_prev rounding_inst) = true /\
   finite32 (k_rise rounding_inst) = true /\ finite32 (k_fall rounding_inst) = true /\
   (k_rise rounding_inst >=? zero) = true /\
   (k_fall rounding_inst >=? zero) = true /\
   rate_limiter_update (Some 1%positive) f_262144 rounding_heap
   = Some (f_131072_next,
           <[1%positive := set_x_prev f_131072_next rounding_inst]> rounding_heap) /\
   (f_131072_next - x_prev rounding_inst <=? k_rise rounding_inst) = false /\
   (exact32 (k_rise rounding_inst)
    < exact32 f_131072_next - exact32 (x_prev rounding_inst))%Z)
  /\
  (finite32 max_float = true /\ finite32 f_2 = true /\
   update_seq (Some 1%positive) [max_float; - max_float] overflow_heap
   = Some ([max_float; - infinity], overflow_heap_2) /\
   overflow_heap_2 !! 1%positive = Some overflow_inst /\
   is_init overflow_inst = true /\
   (k_rise overflow_inst >=? zero) = true /\
   (k_fall overflow_inst >=? zero) = true /\
   rate_limiter_update (Some 1%positive) zero overflow_heap_2
   = Some (nan, <[1%positive := set_x_prev nan overflow_inst]> overflow_heap_2) /\
   (x_prev overflow_inst - k_fall overflow_inst <=? nan) = false /\
   (nan <=? x_prev overflow_inst + k_rise overflow_inst) = false).
Proof. repeat split; vm_compute; reflexivity. Qed.

End SlewInterval.

(** ** Where the second copy departs from [src/rate_limiter.c] *)

Section LegacyDifferences.

Local Open Scope f32_scope.

(** Its update returns [0.0f], not the input, when neither clamp applies. *)
Lemma legacy_limit_pass (s : rate_limiter_t) (x : float32_t) :
  (x - x_prev s >=? k_rise s) = false ->
  (x - x_prev s <=? - k_fall s) = false ->
  Legacy.limit s x = zero /\ limit s x = x.
Proof. intros H1 H2. unfold Legacy.limit, limit. rewrite H1, H2. split; reflexivity. Qed.

(** On the two clamps both copies agree. *)
Lemma legacy_limit_clamped (s : rate_limiter_t) (x : float32_t) :
  (x - x_prev s >=? k_rise s) || (x - x_prev s <=? - k_fall s) = true ->
  Legacy.limit s x = limit s x.
Proof.
  unfold Legacy.limit, limit.
  destruct (x - x_prev s >=? k_rise s), (x - x_prev s <=? - k_fall s);
    simpl; intros H; congruence.
Qed.

(** Its init function refuses a caller whose handle is [NULL]. *)
Lemma legacy_init_null_handle (rise_rate fall_rate dt0 : float32_t)
    (m : malloc_result) (h : heap) :
  Legacy.rate_limiter_init (Some NULL) rise_rate fall_rate dt0 m h
  = Some (eRATE_LIMITER_ERROR, Some NULL, h).
Proof. reflexivity. Qed.

(** Its increments are quotients by the period found in the fresh block. *)
Lemma legacy_init_success (l0 l : addr) (rise_rate fall_rate dt0 : float32_t)
    (blk : rate_limiter_t) (h : heap) :
  (dt0 >? zero) = true ->
  Legacy.rate_limiter_init (Some (Some l0)) rise_rate fall_rate dt0 (Some (l, blk)) h
  = Some (eRATE_LIMITER_OK, Some (Some l),
          <[l := mk_rate_limiter zero
                   (Legacy.rate_limiter_calc_rate_factor blk rise_rate)
                   (Legacy.rate_limiter_calc_rate_factor blk fall_rate)
                   dt0 true]> h).
Proof.
  intros Hdt. unfold Legacy.rate_limiter_init. rewrite Hdt. reflexivity.
Qed.

Example legacy_rate_factor_is_quotient :
  Legacy.rate_limiter_calc_rate_factor readme_inst f_1 = f_1 / f_0_01
  /\ rate_limiter_calc_rate_factor (dt readme_inst) f_1 = f_1 * f_0_01
  /\ f_1 / f_0_01 <> f_1 * f_0_01.
Proof. repeat split. vm_compute. discriminate. Qed.

End LegacyDifferences.

(** ** Independence of instances *)

Section Independence.

Local Open Scope f32_scope.

Lemma do_call_frame (rl_inst : p_rate_limiter) (c : call) (h h' : heap) :
  do_call rl_inst c h = Some h' ->
  dom h' = dom h /\ (forall l' : addr, rl_inst <> Some l' -> h' !! l' = h !! l').
Proof.
  unfold do_call, rate_limiter_update, rate_limiter_change_rate, rate_limiter_is_init.
  destruct rl_inst as [l|]; [destruct (h !! l) as [s|] eqn:Hl|];
    destruct c as [x|rr fr|]; try destruct (is_init s); simpl;
    intros [= <-]; split; try reflexivity;
    try (apply dom_insert_lookup_L; rewrite Hl; eexists; reflexivity);
    intros l' Hne; apply lookup_insert_ne; congruence.
Qed.

(** Extra X1.  Whatever sequence of update, change-rate and query calls is
    made on one handle, when it returns the heap holds the same set of
    blocks (nothing is allocated or released) and every instance other than
    the one the handle points to is exactly as before. *)
Theorem calls_leave_other_instances (rl_inst : p_rate_limiter) (cs : list call)
    (h h' : heap) :
  do_calls rl_inst cs h = Some h' ->
  dom h' = dom h /\ (forall l' : addr, rl_inst <> Some l' -> h' !! l' = h !! l').
Proof.
  revert h. induction cs as [|c cs IH]; intros h; cbn [do_calls].
  - intros [= <-]. split; reflexivity.
  - destruct (do_call rl_inst c h) as [h1|] eqn:E; [|discriminate].
    intros Hcs. destruct (do_call_frame _ _ _ _ E) as [D1 F1].
    destruct (IH h1 Hcs) as [D2 F2]. split; [congruence|].
    intros l' Hne. rewrite (F2 l' Hne). apply F1, Hne.
Qed.

Lemma calls_leave_other_instances_witness :
  do_calls (Some 1%positive) [CallUpdate f_1; CallChangeRate f_2 f_1; CallUpdate zero]
    (<[2%positive := negative_rates_inst]> readme_heap)
  = Some (default ∅ (do_calls (Some 1%positive)
                       [CallUpdate f_1; CallChangeRate f_2 f_1; CallUpdate zero]
                       (<[2%positive := negative_rates_inst]> readme_heap)))
  /\ dom (default ∅ (do_calls (Some 1%positive)
                       [CallUpdate f_1; CallChangeRate f_2 f_1; CallUpdate zero]
                       (<[2%positive := negative_rates_inst]> readme_heap)))
     = dom (<[2%positive := negative_rates_inst]> readme_heap)
  /\ (forall l' : addr, Some 1%positive <> Some l' ->
        default ∅ (do_calls (Some 1%positive)
                     [CallUpdate f_1; CallChangeRate f_2 f_1; CallUpdate zero]
                     (<[2%positive := negative_rates_inst]> readme_heap)) !! l'
        = (<[2%positive := negative_rates_inst]> readme_heap) !! l').
Proof.
  assert (H : do_calls (Some 1%positive)
                [CallUpdate f_1; CallChangeRate f_2 f_1; CallUpdate zero]
                (<[2%positive := negative_rates_inst]> readme_heap)
              = Some (default ∅ (do_calls (Some 1%positive)
                       [CallUpdate f_1; CallChangeRate f_2 f_1; CallUpdate zero]
                       (<[2%positive := negative_rates_inst]> readme_heap))))
    by (vm_compute; reflexivity).
  refine (conj H _).
  exact (calls_leave_other_instances (Some 1%positive)
           [CallUpdate f_1; CallChangeRate f_2 f_1; CallUpdate zero] _ _ H).
Defined.

(** Extra X2.  What the init function does to the heap does not depend on
    what the fresh block held (no field is read before it is written), and
    when [malloc] returns an address that is not in use, every instance
    that was live before the call is still there unchanged, also the one
    the caller's handle pointed to. *)
Theorem init_heap_effect (p_rl_inst : handle_ref)
    (rise_rate fall_rate dt0 : float32_t) (l : addr) (blk1 blk2 : rate_limiter_t)
    (h : heap) :
  h !! l = None ->
  rate_limiter_init p_rl_inst rise_rate fall_rate dt0 (Some (l, blk1)) h
  = rate_limiter_init p_rl_inst rise_rate fall_rate dt0 (Some (l, blk2)) h
  /\ (forall (l' : addr) (s' : rate_limiter_t), h !! l' = Some s' ->
        (rate_limiter_init p_rl_inst rise_rate fall_rate dt0 (Some (l, blk1)) h).2 !! l'
        = Some s').
Proof.
  intros Hfresh. unfold rate_limiter_init.
  destruct p_rl_inst as [old|]; [destruct (dt0 >? zero)|]; simpl;
    (split; [reflexivity|]); intros l' s' Hl'; try exact Hl'.
  rewrite lookup_insert_ne; [exact Hl'|]. intros ->. congruence.
Qed.

Lemma init_heap_effect_witness :
  readme_heap !! 2%positive = None /\
  rate_limiter_init (Some (Some 1%positive)) f_2 f_1 f_0_01 (Some (2%positive, junk)) readme_heap
  = rate_limiter_init (Some (Some 1%positive)) f_2 f_1 f_0_01
      (Some (2%positive, negative_rates_inst)) readme_heap
  /\ (forall (l' : addr) (s' : rate_limiter_t), readme_heap !! l' = Some s' ->
        (rate_limiter_init (Some (Some 1%positive)) f_2 f_1 f_0_01
           (Some (2%positive, junk)) readme_heap).2 !! l' = Some s').
Proof.
  assert (H : readme_heap !! 2%positive = None) by (vm_compute; reflexivity).
  refine (conj H _).
  exact (init_heap_effect (Some (Some 1%positive)) f_2 f_1 f_0_01 2%positive
           junk negative_rates_inst readme_heap H).
Defined.

(** Extra X3.  The init function returns ERROR exactly when the output
    parameter is [NULL] or the period is not strictly positive (a NaN period
    included); in that case it writes nothing: the caller's handle and the
    heap are as before, and [malloc] has no influence. *)
Theorem init_error_iff_bad_arguments (p_rl_inst : handle_ref)
    (rise_rate fall_rate dt0 : float32_t) (m : malloc_result) (h : heap) :
  ((rate_limiter_init p_rl_inst rise_rate fall_rate dt0 m h).1.1 = eRATE_LIMITER_ERROR
   <-> p_rl_inst = None \/ (dt0 >? zero) = false)
  /\ ((rate_limiter_init p_rl_inst rise_rate fall_rate dt0 m h).1.1 = eRATE_LIMITER_ERROR ->
      rate_limiter_init p_rl_inst rise_rate fall_rate dt0 m h
      = (eRATE_LIMITER_ERROR, p_rl_inst, h))
  /\ (rate_limiter_init p_rl_inst rise_rate fall_rate nan m h).1.1 = eRATE_LIMITER_ERROR.
Proof.
  unfold rate_limiter_init. split; [|split].
  - destruct p_rl_inst as [old|]; [|simpl; tauto].
    destruct (dt0 >? zero); [destruct m as [[l blk]|]|]; simpl; split;
      try discriminate; try tauto; intros [H|H]; discriminate.
  - destruct p_rl_inst as [old|]; [|reflexivity].
    destruct (dt0 >? zero); [destruct m as [[l blk]|]|]; simpl;
      try discriminate; reflexivity.
  - destruct p_rl_inst as [old|]; reflexivity.
Qed.

Lemma init_error_iff_bad_arguments_witness :
  (rate_limiter_init (Some (Some 1%positive)) f_1 f_1 f_m1 (Some (2%positive, junk)) readme_heap).1.1
  = eRATE_LIMITER_ERROR /\
  rate_limiter_init (Some (Some 1%positive)) f_1 f_1 f_m1 (Some (2%positive, junk)) readme_heap
  = (eRATE_LIMITER_ERROR, Some (Some 1%positive), readme_heap).
Proof.
  assert (H : (rate_limiter_init (Some (Some 1%positive)) f_1 f_1 f_m1
                 (Some (2%positive, junk)) readme_heap).1.1 = eRATE_LIMITER_ERROR)
    by reflexivity.
  refine (conj H _).
  exact (proj1 (proj2 (init_error_iff_bad_arguments (Some (Some 1%positive)) f_1 f_1 f_m1
                         (Some (2%positive, junk)) readme_heap)) H).
Defined.

(** Extra X4.  After a call of the init function with a valid output
    parameter and a strictly positive period, the initialization query on
    the handle the caller now holds tells whether the allocation succeeded:
    true on the new block, false on the [NULL] a failed [malloc] leaves; and
    after a failed allocation an update on that handle returns [0.0f]. *)
Theorem is_init_after_init (old : p_rate_limiter)
    (rise_rate fall_rate dt0 : float32_t) (m : malloc_result) (h : heap) :
  (dt0 >? zero) = true ->
  exists (rl_inst : p_rate_limiter) (h' : heap),
    rate_limiter_init (Some old) rise_rate fall_rate dt0 m h
    = (eRATE_LIMITER_OK, Some rl_inst, h')
    /\ rate_limiter_is_init rl_inst h'
       = Some (match m with Some _ => true | None => false end)
    /\ (m = None -> forall x : float32_t,
          rate_limiter_update rl_inst x h' = Some (zero, h')).
Proof.
  intros Hdt. destruct m as [[l blk]|].
  - rewrite (init_success old _ _ _ l blk h Hdt). eexists _, _.
    split; [reflexivity|]. split; [|discriminate].
    unfold rate_limiter_is_init. rewrite lookup_insert_eq. reflexivity.
  - rewrite (init_malloc_failure old _ _ _ h Hdt). exists NULL, h.
    repeat split.
Qed.

Lemma is_init_after_init_witness :
  (f_0_01 >? zero) = true /\
  exists (rl_inst : p_rate_limiter) (h' : heap),
    rate_limiter_init (Some NULL) f_1 f_0_5 f_0_01 None ∅
    = (eRATE_LIMITER_OK, Some rl_inst, h')
    /\ rate_limiter_is_init rl_inst h' = Some false
    /\ ((None : malloc_result) = None -> forall x : float32_t,
          rate_limiter_update rl_inst x h' = Some (zero, h')).
Proof.
  assert (H : (f_0_01 >? zero) = true) by (vm_compute; reflexivity).
  refine (conj H _).
  exact (is_init_after_init NULL f_1 f_0_5 f_0_01 None ∅ H).
Defined.

End Independence.

(** ** Reconfiguration *)

Section Reconfiguration.

Local Open Scope f32_scope.

(** Extra X5.  On an initialized instance, a change of rates followed by an
    update behaves as the update of an instance with the same previous
    output and period and the new increments [rise_rate * dt] and
    [fall_rate * dt]: the new rates are in force from the next update on,
    and the change itself does not move the output. *)
Theorem change_rate_then_update (h : heap) (l : addr) (s : rate_limiter_t)
    (rise_rate fall_rate x : float32_t) :
  h !! l = Some s -> is_init s = true ->
  exists h1 : heap,
    rate_limiter_change_rate (Some l) rise_rate fall_rate h = Some (eRATE_LIMITER_OK, h1)
    /\ x_prev <$> h1 !! l = Some (x_prev s)
    /\ rate_limiter_update (Some l) x h1
       = Some (limit (mk_rate_limiter (x_prev s) (rise_rate * dt s) (fall_rate * dt s)
                        (dt s) true) x,
               <[l := mk_rate_limiter
                        (limit (mk_rate_limiter (x_prev s) (rise_rate * dt s)
                                  (fall_rate * dt s) (dt s) true) x)
                        (rise_rate * dt s) (fall_rate * dt s) (dt s) true]> h).
Proof.
  intros Hl Hi. rewrite (change_rate_init h l s _ _ Hl Hi), Hi. eexists.
  split; [reflexivity|]. split; [rewrite lookup_insert_eq; reflexivity|].
  erewrite update_init; [|apply lookup_insert_eq|reflexivity].
  rewrite insert_insert_eq. reflexivity.
Qed.

Lemma change_rate_then_update_witness :
  readme_heap !! 1%positive = Some readme_inst /\ is_init readme_inst = true /\
  exists h1 : heap,
    rate_limiter_change_rate (Some 1%positive) f_2 f_1 readme_heap
    = Some (eRATE_LIMITER_OK, h1)
    /\ x_prev <$> h1 !! 1%positive = Some (x_prev readme_inst)
    /\ rate_limiter_update (Some 1%positive) f_1 h1
       = Some (limit (mk_rate_limiter (x_prev readme_inst) (f_2 * dt readme_inst)
                        (f_1 * dt readme_inst) (dt readme_inst) true) f_1,
               <[1%positive := mk_rate_limiter
                        (limit (mk_rate_limiter (x_prev readme_inst) (f_2 * dt readme_inst)
                                  (f_1 * dt readme_inst) (dt readme_inst) true) f_1)
                        (f_2 * dt readme_inst) (f_1 * dt readme_inst)
                        (dt readme_inst) true]> readme_heap).
Proof.
  assert (H1 : readme_heap !! 1%positive = Some readme_inst)
    by (vm_compute; reflexivity).
  assert (H2 : is_init readme_inst = true) by reflexivity.
  refine (conj H1 (conj H2 _)).
  exact (change_rate_then_update readme_heap 1%positive readme_inst f_2 f_1 f_1 H1 H2).
Defined.

(** Extra X6.  Of two successive changes of rates only the last counts:
    the second call gives the status and the heap it would have given
    without the first (the increments are recomputed from the period, which
    no call changes, and never from the old increments). *)
Theorem change_rate_last_wins (rl_inst : p_rate_limiter)
    (rise1 fall1 rise2 fall2 : float32_t) (h h1 : heap)
    (status : rate_limiter_status_t) :
  rate_limiter_change_rate rl_inst rise1 fall1 h = Some (status, h1) ->
  rate_limiter_change_rate rl_inst rise2 fall2 h1
  = rate_limiter_change_rate rl_inst rise2 fall2 h.
Proof.
  unfold rate_limiter_change_rate.
  destruct rl_inst as [l|]; [|intros [= _ <-]; reflexivity].
  destruct (h !! l) as [s|] eqn:Hl; [|discriminate].
  destruct (is_init s) eqn:Hi; intros [= _ <-].
  - rewrite lookup_insert_eq. cbn [is_init set_k_fall set_k_rise dt x_prev k_rise].
    rewrite Hi, insert_insert_eq. reflexivity.
  - rewrite Hl, Hi. reflexivity.
Qed.

Lemma change_rate_last_wins_witness :
  rate_limiter_change_rate (Some 1%positive) f_2 f_1 readme_heap
  = Some (eRATE_LIMITER_OK,
          <[1%positive := mk_rate_limiter zero (f_2 * f_0_01) (f_1 * f_0_01) f_0_01 true]>
            readme_heap)
  /\ rate_limiter_change_rate (Some 1%positive) f_1 f_0_5
       (<[1%positive := mk_rate_limiter zero (f_2 * f_0_01) (f_1 * f_0_01) f_0_01 true]>
          readme_heap)
     = rate_limiter_change_rate (Some 1%positive) f_1 f_0_5 readme_heap.
Proof.
  assert (H : rate_limiter_change_rate (Some 1%positive) f_2 f_1 readme_heap
              = Some (eRATE_LIMITER_OK,
                      <[1%positive := mk_rate_limiter zero (f_2 * f_0_01) (f_1 * f_0_01)
                                        f_0_01 true]> readme_heap))
    by (vm_compute; reflexivity).
  refine (conj H _).
  exact (change_rate_last_wins (Some 1%positive) f_2 f_1 f_1 f_0_5 readme_heap _ _ H).
Defined.

(** Extra X7.  A change of rates computes the increments the way the init
    function does: right after a successful creation, changing the rates to
    the ones given at creation returns OK and leaves the heap as it is. *)
Theorem change_rate_to_initial_rates (old : p_rate_limiter)
    (rise_rate fall_rate dt0 : float32_t) (l : addr) (blk : rate_limiter_t)
    (h : heap) :
  (dt0 >? zero) = true ->
  rate_limiter_change_rate (Some l) rise_rate fall_rate
    (rate_limiter_init (Some old) rise_rate fall_rate dt0 (Some (l, blk)) h).2
  = Some (eRATE_LIMITER_OK,
          (rate_limiter_init (Some old) rise_rate fall_rate dt0 (Some (l, blk)) h).2).
Proof.
  intros Hdt. rewrite (init_success old _ _ _ l blk h Hdt). cbn [snd].
  erewrite change_rate_init; [|apply lookup_insert_eq|reflexivity].
  cbn [x_prev dt is_init]. rewrite insert_insert_eq. reflexivity.
Qed.

Lemma change_rate_to_initial_rates_witness :
  (f_0_01 >? zero) = true /\
  rate_limiter_change_rate (Some 1%positive) f_1 f_0_5
    (rate_limiter_init (Some NULL) f_1 f_0_5 f_0_01 (Some (1%positive, junk)) ∅).2
  = Some (eRATE_LIMITER_OK,
          (rate_limiter_init (Some NULL) f_1 f_0_5 f_0_01 (Some (1%positive, junk)) ∅).2).
Proof.
  assert (H : (f_0_01 >? zero) = true) by (vm_compute; reflexivity).
  refine (conj H _).
  exact (change_rate_to_initial_rates NULL f_1 f_0_5 f_0_01 1%positive junk ∅ H).
Defined.

End Reconfiguration.

(** ** Non-finite and degenerate inputs *)

Section EdgeInputs.

Local Open Scope f32_scope.

Lemma sub_nan_r (a : float32_t) : a - nan = nan.
Proof. destruct a; reflexivity. Qed.

Lemma limit_nan_input (s : rate_limiter_t) : limit s nan = nan.
Proof. reflexivity. Qed.

Lemma limit_nan_state (s : rate_limiter_t) (x : float32_t) :
  x_prev s = nan -> limit s x = x.
Proof. intros E. unfold limit. rewrite E, sub_nan_r. reflexivity. Qed.

(** Extra X8.  A NaN input to an initialized instance is returned and
    stored as the previous output; and while the previous output is a NaN
    no test can hold, so the next update returns its input unchanged,
    whatever the increments: after a NaN sample the following sample is not
    rate limited. *)
Theorem nan_input_bypasses_limits (h : heap) (l : addr) (s : rate_limiter_t) :
  h !! l = Some s -> is_init s = true ->
  rate_limiter_update (Some l) nan h = Some (nan, <[l := set_x_prev nan s]> h)
  /\ (x_prev s = nan -> forall x : float32_t,
        rate_limiter_update (Some l) x h = Some (x, <[l := set_x_prev x s]> h))
  /\ (forall x : float32_t,
        fst <$> update_seq (Some l) [nan; x] h = Some [nan; x]).
Proof.
  intros Hl Hi. split; [|split].
  - rewrite (update_init h l s nan Hl Hi), limit_nan_input. reflexivity.
  - intros E x. rewrite (update_init h l s x Hl Hi), (limit_nan_state s x E).
    reflexivity.
  - intros x. cbn [update_seq].
    rewrite (update_init h l s nan Hl Hi), limit_nan_input.
    erewrite update_init; [|apply lookup_insert_eq|exact Hi].
    rewrite limit_nan_state by reflexivity. reflexivity.
Qed.

Lemma nan_input_bypasses_limits_witness :
  readme_heap !! 1%positive = Some readme_inst /\ is_init readme_inst = true /\
  rate_limiter_update (Some 1%positive) nan readme_heap
  = Some (nan, <[1%positive := set_x_prev nan readme_inst]> readme_heap)
  /\ (x_prev readme_inst = nan -> forall x : float32_t,
        rate_limiter_update (Some 1%positive) x readme_heap
        = Some (x, <[1%positive := set_x_prev x readme_inst]> readme_heap))
  /\ (forall x : float32_t,
        fst <$> update_seq (Some 1%positive) [nan; x] readme_heap = Some [nan; x]).
Proof.
  assert (H1 : readme_heap !! 1%positive = Some readme_inst)
    by (vm_compute; reflexivity).
  assert (H2 : is_init readme_inst = true) by reflexivity.
  refine (conj H1 (conj H2 _)).
  exact (nan_input_bypasses_limits readme_heap 1%positive readme_inst H1 H2).
Defined.

Lemma do_call_unusable (rl_inst : p_rate_limiter) (c : call) (h : heap) :
  rl_inst = NULL \/
  (exists (l : addr) (s : rate_limiter_t),
     rl_inst = Some l /\ h !! l = Some s /\ is_init s = false) ->
  do_call rl_inst c h = Some h.
Proof.
  intros [->|(l & s & -> & Hl & Hi)]; destruct c as [x|rr fr|];
    unfold do_call, rate_limiter_update, rate_limiter_change_rate, rate_limiter_is_init;
    try reflexivity; rewrite Hl; try rewrite Hi; reflexivity.
Qed.

(** Extra X9.  No call other than the init function brings an instance
    into use: on a [NULL] handle, and on an instance whose flag is false,
    every sequence of update, change-rate and query calls returns and
    leaves the whole heap as it is; in particular the flag stays false. *)
Theorem calls_on_unusable_handle (rl_inst : p_rate_limiter) (cs : list call)
    (h : heap) :
  rl_inst = NULL \/
  (exists (l : addr) (s : rate_limiter_t),
     rl_inst = Some l /\ h !! l = Some s /\ is_init s = false) ->
  do_calls rl_inst cs h = Some h.
Proof.
  intros H. induction cs as [|c cs IH]; cbn [do_calls]; [reflexivity|].
  rewrite (do_call_unusable rl_inst c h H). exact IH.
Qed.

Lemma calls_on_unusable_handle_witness :
  (Some 2%positive = NULL \/
   (exists (l : addr) (s : rate_limiter_t),
      Some 2%positive = Some l /\ ({[2%positive := junk]} : heap) !! l = Some s
      /\ is_init s = false)) /\
  do_calls (Some 2%positive) [CallUpdate f_1; CallChangeRate f_2 f_1; CallIsInit]
    {[2%positive := junk]}
  = Some {[2%positive := junk]}.
Proof.
  assert (H : Some 2%positive = NULL \/
              (exists (l : addr) (s : rate_limiter_t),
                 Some 2%positive = Some l /\ ({[2%positive := junk]} : heap) !! l = Some s
                 /\ is_init s = false)).
  { right. exists 2%positive, junk. split; [reflexivity|].
    split; [vm_compute; reflexivity|reflexivity]. }
  refine (conj H _).
  exact (calls_on_unusable_handle (Some 2%positive)
           [CallUpdate f_1; CallChangeRate f_2 f_1; CallIsInit] {[2%positive := junk]} H).
Defined.

End EdgeInputs.

(** ** Direction of the output and sign of the increments *)

Section Direction.

Local Open Scope f32_scope.

Local Abbreviation B := (Fmt.B2Z F32.prec F32.emax).
Local Abbreviation fin32 := (Fmt.fin F32.prec F32.emax).

(** From [a <= m <= b] with finite ends, whatever well-formed [m] is. *)
Lemma le_trans_ends (a m b : float32_t) :
  finite32 a = true -> finite32 b = true -> valid m = true ->
  (a <=? m) = true -> (m <=? b) = true -> (B a <= B b)%Z.
Proof.
  intros Ha Hb Vm Ham Hmb.
  pose proof (finite32_fin a Ha) as Fa. pose proof (finite32_fin b Hb) as Fb.
  unfold le in *. destruct (is_finite m) eqn:Fm.
  - assert (Fm' : fin32 m) by (split; assumption).
    rewrite (SFleb_B2Z _ _ prec_gt_0_32 a m Fa Fm') in Ham.
    rewrite (SFleb_B2Z _ _ prec_gt_0_32 m b Fm' Fb) in Hmb.
    apply Z.leb_le in Ham, Hmb. lia.
  - destruct Fa as [_ Fa], Fb as [_ Fb].
    destruct m as [sm|[]| |sm mm em]; try discriminate;
      destruct a as [sa|sa| |[] ma ea]; try discriminate;
      destruct b as [sb|sb| |[] mb eb]; discriminate.
Qed.

(** The update moves the output towards the input, never away from it. *)
Lemma limit_direction (s : rate_limiter_t) (x : float32_t) :
  finite32 x = true -> finite32 (x_prev s) = true ->
  finite32 (k_rise s) = true -> finite32 (k_fall s) = true ->
  (k_rise s >=? zero) = true -> (k_fall s >=? zero) = true ->
  ((x_prev s <=? x) = true -> (x_prev s <=? limit s x) = true) /\
  ((x <=? x_prev s) = true -> (limit s x <=? x_prev s) = true).
Proof.
  intros Hx Hp Hr Hf Hr0 Hf0.
  pose proof (finite32_fin _ Hx) as Fx. pose proof (finite32_fin _ Hp) as Fp.
  pose proof (finite32_fin _ Hr) as Fr. pose proof (finite32_fin _ Hf) as Ff.
  pose proof (fin_opp _ _ _ Ff) as Fnf.
  pose proof (fin_zero F32.prec F32.emax false) as Fz.
  assert (Hz : finite32 zero = true) by reflexivity.
  assert (Hnf : finite32 (- k_fall s) = true).
  { unfold finite32, valid, neg. apply andb_true_iff. exact Fnf. }
  destruct (SFsub_brackets _ _ prec_gt_0_32 prec_lt_emax_32 (x_prev s) (k_fall s) Fp Ff)
    as (Vlo & Nlo & Llo & Ulo).
  destruct (SFadd_brackets _ _ prec_gt_0_32 prec_lt_emax_32 (x_prev s) (k_rise s) Fp Fr)
    as (Vhi & Nhi & Lhi & Uhi).
  destruct (SFsub_brackets _ _ prec_gt_0_32 prec_lt_emax_32 x (x_prev s) Fx Fp)
    as (Vdx & Ndx & Ldx & Udx).
  fold sub in *. fold add in *. fold le in *.
  assert (HR : (0 <= B (k_rise s))%Z).
  { rewrite ge_as_le in Hr0. unfold le in Hr0.
    rewrite (SFleb_B2Z _ _ prec_gt_0_32 zero (k_rise s) Fz Fr) in Hr0.
    apply Z.leb_le in Hr0. exact Hr0. }
  assert (HF : (0 <= B (k_fall s))%Z).
  { rewrite ge_as_le in Hf0. unfold le in Hf0.
    rewrite (SFleb_B2Z _ _ prec_gt_0_32 zero (k_fall s) Fz Ff) in Hf0.
    apply Z.leb_le in Hf0. exact Hf0. }
  assert (Hpx : (x_prev s <=? x) = true -> (B (x_prev s) <= B x)%Z).
  { unfold le. rewrite (SFleb_B2Z _ _ prec_gt_0_32 _ _ Fp Fx). apply Z.leb_le. }
  assert (Hxp : (x <=? x_prev s) = true -> (B x <= B (x_prev s))%Z).
  { unfold le. rewrite (SFleb_B2Z _ _ prec_gt_0_32 _ _ Fx Fp). apply Z.leb_le. }
  unfold limit.
  destruct (x - x_prev s >=? k_rise s) eqn:Hge.
  - split; intros H.
    + apply Lhi; [exact Fp|lia].
    + apply Uhi; [exact Fp|]. apply Hxp in H.
      rewrite ge_as_le in Hge.
      assert (Hdz : (x - x_prev s <=? zero) = true) by (apply Udx; [exact Fz|simpl; lia]).
      pose proof (le_trans_ends _ _ _ Hr Hz Vdx Hge Hdz) as Hle. simpl in Hle. lia.
  - destruct (x - x_prev s <=? - k_fall s) eqn:Hle.
    + split; intros H.
      * apply Llo; [exact Fp|]. apply Hpx in H.
        assert (Hzd : (zero <=? x - x_prev s) = true) by (apply Ldx; [exact Fz|simpl; lia]).
        pose proof (le_trans_ends _ _ _ Hz Hnf Vdx Hzd Hle) as Hle'.
        unfold neg in Hle'. rewrite B2Z_opp in Hle'. simpl in Hle'. lia.
      * apply Ulo; [exact Fp|lia].
    + split; intros H; exact H.
Qed.

(** Extra X10.  For an initialized instance whose previous output [p] and
    increments are finite with both increments non-negative, and a finite
    input [x], the update never moves the output away from the input: when
    [p <= x] the returned (and stored) value is at least [p], and when
    [x <= p] it is at most [p]. *)
Theorem update_moves_towards_input (h : heap) (l : addr) (s : rate_limiter_t)
    (x : float32_t) :
  h !! l = Some s -> is_init s = true ->
  finite32 x = true -> finite32 (x_prev s) = true ->
  finite32 (k_rise s) = true -> finite32 (k_fall s) = true ->
  (k_rise s >=? zero) = true -> (k_fall s >=? zero) = true ->
  exists (y : float32_t) (h' : heap),
    rate_limiter_update (Some l) x h = Some (y, h')
    /\ x_prev <$> h' !! l = Some y
    /\ ((x_prev s <=? x) = true -> (x_prev s <=? y) = true)
    /\ ((x <=? x_prev s) = true -> (y <=? x_prev s) = true).
Proof.
  intros Hl Hi Hx Hp Hr Hf Hr0 Hf0.
  exists (limit s x), (<[l := set_x_prev (limit s x) s]> h).
  split; [apply update_init; assumption|].
  split; [rewrite lookup_insert_eq; reflexivity|].
  apply limit_direction; assumption.
Qed.

Lemma update_moves_towards_input_witness :
  readme_heap !! 1%positive = Some readme_inst /\ is_init readme_inst = true /\
  finite32 f_1 = true /\ finite32 (x_prev readme_inst) = true /\
  finite32 (k_rise readme_inst) = true /\ finite32 (k_fall readme_inst) = true /\
  (k_rise readme_inst >=? zero) = true /\ (k_fall readme_inst >=? zero) = true /\
  exists (y : float32_t) (h' : heap),
    rate_limiter_update (Some 1%positive) f_1 readme_heap = Some (y, h')
    /\ x_prev <$> h' !! 1%positive = Some y
    /\ ((x_prev readme_inst <=? f_1) = true -> (x_prev readme_inst <=? y) = true)
    /\ ((f_1 <=? x_prev readme_inst) = true -> (y <=? x_prev readme_inst) = true).
Proof.
  assert (H1 : readme_heap !! 1%positive = Some readme_inst)
    by (vm_compute; reflexivity).
  assert (H2 : is_init readme_inst = true) by reflexivity.
  assert (H3 : finite32 f_1 = true) by (vm_compute; reflexivity).
  assert (H4 : finite32 (x_prev readme_inst) = true) by (vm_compute; reflexivity).
  assert (H5 : finite32 (k_rise readme_inst) = true) by (vm_compute; reflexivity).
  assert (H6 : finite32 (k_fall readme_inst) = true) by (vm_compute; reflexivity).
  assert (H7 : (k_rise readme_inst >=? zero) = true) by (vm_compute; reflexivity).
  assert (H8 : (k_fall readme_inst >=? zero) = true) by (vm_compute; reflexivity).
  refine (conj H1 (conj H2 (conj H3 (conj H4 (conj H5 (conj H6 (conj H7 (conj H8 _)))))))).
  exact (update_moves_towards_input readme_heap 1%positive readme_inst f_1
           H1 H2 H3 H4 H5 H6 H7 H8).
Defined.

End Direction.

Section IncrementSign.

Local Open Scope f32_scope.

Lemma shr_m_nonneg (M e n : Z) :
  (0 <= M)%Z -> (0 <= shr_m (shr (Build_shr_record M false false) e n).1)%Z.
Proof.
  intros HM. unfold shr. destruct n as [|p|p]; cbn [fst shr_m]; try exact HM.
  destruct (iter_pos_shr_inv M p HM 0 _ (Z.le_refl 0) (shr_inv_0 M)) as [E _].
  rewrite E. apply Z.div_pos; [exact HM|apply pow2_pos; lia].
Qed.

Lemma round_nearest_even_ge (m : Z) (l : location) :
  (m <= round_nearest_even m l)%Z.
Proof. destruct l as [|[]]; simpl; try destruct (Z.even m); lia. Qed.

(** Rounding a positive mantissa keeps the sign and gives no NaN. *)
Lemma binary_round_aux_sign (prec emax : Z) (s : bool) (m : positive) (e : Z) :
  binary_round_aux prec emax s (Zpos m) e loc_Exact = S754_zero s
  \/ binary_round_aux prec emax s (Zpos m) e loc_Exact = S754_infinity s
  \/ exists (m' : positive) (e' : Z),
       binary_round_aux prec emax s (Zpos m) e loc_Exact = S754_finite s m' e'.
Proof.
  unfold binary_round_aux, shr_fexp. cbn [shr_record_of_loc].
  pose proof (shr_m_nonneg (Zpos m) e
                (SpecFloat.fexp prec emax (Zdigits2 (Zpos m) + e) - e) ltac:(lia)) as H1.
  destruct (shr (Build_shr_record (Zpos m) false false) e _) as [mrs' e'].
  cbn [fst] in H1.
  pose proof (round_nearest_even_ge (shr_m mrs') (loc_of_shr_record mrs')) as H2.
  set (q := round_nearest_even (shr_m mrs') (loc_of_shr_record mrs')) in *.
  pose proof (shr_m_nonneg q e' (SpecFloat.fexp prec emax (Zdigits2 q + e') - e')
                ltac:(lia)) as H3.
  destruct (shr (Build_shr_record q false false) e' _) as [mrs'' e''].
  cbn [fst] in H3.
  destruct (shr_m mrs'') as [|m'|m']; [left; reflexivity| |lia].
  right. destruct (e'' <=? emax - prec)%Z; [right; eexists _, _|left]; reflexivity.
Qed.

Lemma calc_rate_factor_nonneg (dt0 slew_rate : float32_t) :
  is_finite dt0 = true -> (dt0 >? zero) = true -> (slew_rate >=? zero) = true ->
  (rate_limiter_calc_rate_factor dt0 slew_rate >=? zero) = true.
Proof.
  unfold rate_limiter_calc_rate_factor, mul.
  destruct dt0 as [sd|sd| |[] md ed]; try discriminate. intros _ _.
  destruct slew_rate as [sr|[]| |[] mr er]; try discriminate; intros _;
    try reflexivity.
  cbn [SFmul xorb].
  destruct (binary_round_aux_sign F32.prec F32.emax false (mr * md) (er + ed))
    as [->|[->|(m' & e' & ->)]]; reflexivity.
Qed.

(** Extra X11.  With a finite, strictly positive period, rates that are
    not negative give increments that are not negative (and no NaN), both
    at creation and at a later change of rates.  The increments may still
    be zero, when the product underflows, or infinite, when it overflows. *)
Theorem nonneg_rates_nonneg_increments (rise_rate fall_rate : float32_t) :
  (rise_rate >=? zero) = true -> (fall_rate >=? zero) = true ->
  (forall (old : p_rate_limiter) (dt0 : float32_t) (l : addr) (blk : rate_limiter_t)
          (h : heap),
      is_finite dt0 = true -> (dt0 >? zero) = true ->
      exists s : rate_limiter_t,
        (rate_limiter_init (Some old) rise_rate fall_rate dt0 (Some (l, blk)) h).2 !! l
        = Some s
        /\ (k_rise s >=? zero) = true /\ (k_fall s >=? zero) = true)
  /\ (forall (h : heap) (l : addr) (s : rate_limiter_t),
        h !! l = Some s -> is_init s = true ->
        is_finite (dt s) = true -> (dt s >? zero) = true ->
        exists (h' : heap) (s' : rate_limiter_t),
          rate_limiter_change_rate (Some l) rise_rate fall_rate h
          = Some (eRATE_LIMITER_OK, h')
          /\ h' !! l = Some s'
          /\ (k_rise s' >=? zero) = true /\ (k_fall s' >=? zero) = true).
Proof.
  intros Hr Hf. split.
  - intros old dt0 l blk h Fd Hd. rewrite (init_success old _ _ _ l blk h Hd).
    eexists. split; [apply lookup_insert_eq|].
    split; apply calc_rate_factor_nonneg; assumption.
  - intros h l s Hl Hi Fd Hd. rewrite (change_rate_init h l s _ _ Hl Hi).
    eexists _, _. split; [reflexivity|]. split; [apply lookup_insert_eq|].
    split; apply calc_rate_factor_nonneg; assumption.
Qed.

Lemma nonneg_rates_nonneg_increments_witness :
  (f_1 >=? zero) = true /\ (f_0_5 >=? zero) = true /\
  is_finite f_0_01 = true /\ (f_0_01 >? zero) = true /\
  exists s : rate_limiter_t,
    (rate_limiter_init (Some NULL) f_1 f_0_5 f_0_01 (Some (1%positive, junk)) ∅).2
      !! 1%positive = Some s
    /\ (k_rise s >=? zero) = true /\ (k_fall s >=? zero) = true.
Proof.
  assert (H1 : (f_1 >=? zero) = true) by (vm_compute; reflexivity).
  assert (H2 : (f_0_5 >=? zero) = true) by (vm_compute; reflexivity).
  assert (H3 : is_finite f_0_01 = true) by (vm_compute; reflexivity).
  assert (H4 : (f_0_01 >? zero) = true) by (vm_compute; reflexivity).
  refine (conj H1 (conj H2 (conj H3 (conj H4 _)))).
  exact (proj1 (nonneg_rates_nonneg_increments f_1 f_0_5 H1 H2)
           NULL f_0_01 1%positive junk ∅ H3 H4).
Defined.

End IncrementSign.

(** ** Behaviour of the second copy *)

Section LegacyBehaviour.

Local Open Scope f32_scope.

Lemma legacy_update_init (h : heap) (l : addr) (s : rate_limiter_t) (x : float32_t) :
  h !! l = Some s -> is_init s = true ->
  Legacy.rate_limiter_update (Some l) x h
  = Some (Legacy.limit s x, <[l := set_x_prev (Legacy.limit s x) s]> h).
Proof.
  intros Hl Hi. unfold Legacy.rate_limiter_update. rewrite Hl, Hi. reflexivity.
Qed.

(** Extra X12.  The update of the second copy does what the current one
    does whenever a clamp applies; when neither applies it returns [0.0f]
    and stores [0.0f] as the previous output, not the input.  So with both
    increments strictly positive, an input equal to the previous output
    resets the output to zero. *)
Theorem legacy_update_pass_through (h : heap) (l : addr) (s : rate_limiter_t)
    (x : float32_t) :
  h !! l = Some s -> is_init s = true ->
  ((x - x_prev s >=? k_rise s) || (x - x_prev s <=? - k_fall s) = true ->
   Legacy.rate_limiter_update (Some l) x h = rate_limiter_update (Some l) x h)
  /\ ((x - x_prev s >=? k_rise s) = false -> (x - x_prev s <=? - k_fall s) = false ->
      Legacy.rate_limiter_update (Some l) x h
      = Some (zero, <[l := set_x_prev zero s]> h))
  /\ ((k_rise s >? zero) = true -> (k_fall s >? zero) = true ->
      Legacy.rate_limiter_update (Some l) (x_prev s) h
      = Some (zero, <[l := set_x_prev zero s]> h)).
Proof.
  intros Hl Hi. split; [|split].
  - intros H. rewrite (legacy_update_init h l s x Hl Hi), (update_init h l s x Hl Hi).
    rewrite (legacy_limit_clamped s x H). reflexivity.
  - intros H1 H2. rewrite (legacy_update_init h l s x Hl Hi).
    destruct (legacy_limit_pass s x H1 H2) as [-> _]. reflexivity.
  - intros Hr Hf. rewrite (legacy_update_init h l s (x_prev s) Hl Hi).
    assert (E : Legacy.limit s (x_prev s) = zero).
    { apply legacy_limit_pass; destruct (sub_diag (x_prev s)) as [E|E]; rewrite E.
      - apply gt_zero_not_le, Hr.
      - apply ge_nan_l.
      - apply gt_zero_neg, Hf.
      - apply le_nan_l. }
    rewrite E. reflexivity.
Qed.

Lemma legacy_update_pass_through_witness :
  readme_heap !! 1%positive = Some readme_inst /\ is_init readme_inst = true /\
  (of_Z_exp 1 (-10) - x_prev readme_inst >=? k_rise readme_inst) = false /\
  (of_Z_exp 1 (-10) - x_prev readme_inst <=? - k_fall readme_inst) = false /\
  Legacy.rate_limiter_update (Some 1%positive) (of_Z_exp 1 (-10)) readme_heap
  = Some (zero, <[1%positive := set_x_prev zero readme_inst]> readme_heap).
Proof.
  assert (H1 : readme_heap !! 1%positive = Some readme_inst)
    by (vm_compute; reflexivity).
  assert (H2 : is_init readme_inst = true) by reflexivity.
  assert (H3 : (of_Z_exp 1 (-10) - x_prev readme_inst >=? k_rise readme_inst) = false)
    by (vm_compute; reflexivity).
  assert (H4 : (of_Z_exp 1 (-10) - x_prev readme_inst <=? - k_fall readme_inst) = false)
    by (vm_compute; reflexivity).
  refine (conj H1 (conj H2 (conj H3 (conj H4 _)))).
  exact (proj1 (proj2 (legacy_update_pass_through readme_heap 1%positive readme_inst
                         (of_Z_exp 1 (-10)) H1 H2)) H3 H4).
Defined.

(** Extra X13.  The init function of the second copy returns ERROR and
    writes nothing when the caller's handle is [NULL] or the period is not
    strictly positive.  Otherwise it returns OK; when [malloc] fails the
    handle becomes [NULL]; when it succeeds the increments are computed from
    the period field the fresh block happens to hold, before the period is
    stored: the quotient [rate / period] if that field is not zero, a NaN if
    it is, whatever the period argument. *)
Theorem legacy_init_behaviour (old : p_rate_limiter)
    (rise_rate fall_rate dt0 : float32_t) (h : heap) :
  (old = NULL \/ (dt0 >? zero) = false ->
   forall m : malloc_result,
     Legacy.rate_limiter_init (Some old) rise_rate fall_rate dt0 m h
     = Some (eRATE_LIMITER_ERROR, Some old, h))
  /\ (old <> NULL -> (dt0 >? zero) = true ->
      Legacy.rate_limiter_init (Some old) rise_rate fall_rate dt0 None h
      = Some (eRATE_LIMITER_OK, Some NULL, h)
      /\ forall (l : addr) (blk : rate_limiter_t),
           Legacy.rate_limiter_init (Some old) rise_rate fall_rate dt0 (Some (l, blk)) h
           = Some (eRATE_LIMITER_OK, Some (Some l),
                   <[l := mk_rate_limiter zero
                            (if dt blk !=? zero then rise_rate / dt blk else nan)
                            (if dt blk !=? zero then fall_rate / dt blk else nan)
                            dt0 true]> h)).
Proof.
  unfold Legacy.rate_limiter_init. split.
  - intros [->|Hdt] m; [reflexivity|]. rewrite Hdt, andb_false_r. reflexivity.
  - intros Hold Hdt. rewrite Hdt, bool_decide_eq_true_2 by exact Hold.
    split; reflexivity.
Qed.

Lemma legacy_init_behaviour_witness :
  Some 7%positive <> NULL /\ (f_0_01 >? zero) = true /\
  Legacy.rate_limiter_init (Some (Some 7%positive)) f_1 f_0_5 f_0_01
    (Some (1%positive, junk)) ∅
  = Some (eRATE_LIMITER_OK, Some (Some 1%positive),
          <[1%positive := mk_rate_limiter zero
                   (if dt junk !=? zero then f_1 / dt junk else nan)
                   (if dt junk !=? zero then f_0_5 / dt junk else nan)
                   f_0_01 true]> ∅).
Proof.
  assert (H1 : Some 7%positive <> NULL) by discriminate.
  assert (H2 : (f_0_01 >? zero) = true) by (vm_compute; reflexivity).
  refine (conj H1 (conj H2 _)).
  exact (proj2 (proj2 (legacy_init_behaviour (Some 7%positive) f_1 f_0_5 f_0_01 ∅) H1 H2)
           1%positive junk).
Defined.

(** Extra X14.  On an initialized instance the change of rates of the
    second copy returns OK and stores, for each rate, the quotient
    [rate / period] by the stored period, or a NaN when the stored period
    is zero; previous output, period and flag are kept.  On a [NULL] handle
    and on an instance whose flag is false it returns ERROR and changes
    nothing. *)
Theorem legacy_change_rate_behaviour (h : heap) (rise_rate fall_rate : float32_t) :
  (forall (l : addr) (s : rate_limiter_t),
     h !! l = Some s -> is_init s = true ->
     Legacy.rate_limiter_change_rate (Some l) rise_rate fall_rate h
     = Some (eRATE_LIMITER_OK,
             <[l := mk_rate_limiter (x_prev s)
                      (if dt s !=? zero then rise_rate / dt s else nan)
                      (if dt s !=? zero then fall_rate / dt s else nan)
                      (dt s) true]> h))
  /\ Legacy.rate_limiter_change_rate NULL rise_rate fall_rate h
     = Some (eRATE_LIMITER_ERROR, h)
  /\ (forall (l : addr) (s : rate_limiter_t),
        h !! l = Some s -> is_init s = false ->
        Legacy.rate_limiter_change_rate (Some l) rise_rate fall_rate h
        = Some (eRATE_LIMITER_ERROR, h)).
Proof.
  unfold Legacy.rate_limiter_change_rate. split; [|split].
  - intros l s Hl Hi. rewrite Hl. destruct s; simpl in *; subst. reflexivity.
  - reflexivity.
  - intros l s Hl Hi. rewrite Hl, Hi. reflexivity.
Qed.

Lemma legacy_change_rate_behaviour_witness :
  readme_heap !! 1%positive = Some readme_inst /\ is_init readme_inst = true /\
  Legacy.rate_limiter_change_rate (Some 1%positive) f_2 f_1 readme_heap
  = Some (eRATE_LIMITER_OK,
          <[1%positive := mk_rate_limiter (x_prev readme_inst)
                   (if dt readme_inst !=? zero then f_2 / dt readme_inst else nan)
                   (if dt readme_inst !=? zero then f_1 / dt readme_inst else nan)
                   (dt readme_inst) true]> readme_heap).
Proof.
  assert (H1 : readme_heap !! 1%positive = Some readme_inst)
    by (vm_compute; reflexivity).
  assert (H2 : is_init readme_inst = true) by reflexivity.
  refine (conj H1 (conj H2 _)).
  exact (proj1 (legacy_change_rate_behaviour readme_heap f_2 f_1)
           1%positive readme_inst H1 H2).
Defined.

End LegacyBehaviour.

(** ** No NaN from finite values *)

Section NoNaN.

Local Open Scope f32_scope.

(** Extra X15.  For an initialized instance whose previous output and
    increments are finite (of any sign) and a finite input, the value the
    update returns and stores is a well-formed binary32 value and is never
    a NaN; it can be infinite only where the clamp sum or difference
    overflows. *)
Theorem update_finite_no_nan (h : heap) (l : addr) (s : rate_limiter_t)
    (x : float32_t) :
  h !! l = Some s -> is_init s = true ->
  finite32 x = true -> finite32 (x_prev s) = true ->
  finite32 (k_rise s) = true -> finite32 (k_fall s) = true ->
  exists (y : float32_t) (h' : heap),
    rate_limiter_update (Some l) x h = Some (y, h')
    /\ x_prev <$> h' !! l = Some y
    /\ valid y = true /\ y <> nan
    /\ (is_finite (x_prev s + k_rise s) = true ->
        is_finite (x_prev s - k_fall s) = true -> finite32 y = true).
Proof.
  intros Hl Hi Hx Hp Hr Hf.
  pose proof (finite32_fin _ Hx) as Fx. pose proof (finite32_fin _ Hp) as Fp.
  pose proof (finite32_fin _ Hr) as Fr. pose proof (finite32_fin _ Hf) as Ff.
  destruct (SFsub_brackets _ _ prec_gt_0_32 prec_lt_emax_32 (x_prev s) (k_fall s) Fp Ff)
    as (Vlo & Nlo & _).
  destruct (SFadd_brackets _ _ prec_gt_0_32 prec_lt_emax_32 (x_prev s) (k_rise s) Fp Fr)
    as (Vhi & Nhi & _).
  fold sub in *. fold add in *. fold (valid (x_prev s - k_fall s)) in Vlo.
  fold (valid (x_prev s + k_rise s)) in Vhi.
  exists (limit s x), (<[l := set_x_prev (limit s x) s]> h).
  split; [apply update_init; assumption|].
  split; [rewrite lookup_insert_eq; reflexivity|].
  unfold limit, finite32.
  destruct (x - x_prev s >=? k_rise s); [|destruct (x - x_prev s <=? - k_fall s)].
  - repeat split; try assumption. intros -> _. rewrite Vhi. reflexivity.
  - repeat split; try assumption. intros _ ->. rewrite Vlo. reflexivity.
  - destruct Fx as [Vx Ix]. repeat split; try assumption.
    + destruct x; discriminate.
    + intros _ _. exact Hx.
Qed.

Lemma update_finite_no_nan_witness :
  negative_rates_heap !! 1%positive = Some negative_rates_inst /\
  is_init negative_rates_inst = true /\
  finite32 f_2 = true /\ finite32 (x_prev negative_rates_inst) = true /\
  finite32 (k_rise negative_rates_inst) = true /\
  finite32 (k_fall negative_rates_inst) = true /\
  exists (y : float32_t) (h' : heap),
    rate_limiter_update (Some 1%positive) f_2 negative_rates_heap = Some (y, h')
    /\ x_prev <$> h' !! 1%positive = Some y
    /\ valid y = true /\ y <> nan
    /\ (is_finite (x_prev negative_rates_inst + k_rise negative_rates_inst) = true ->
        is_finite (x_prev negative_rates_inst - k_fall negative_rates_inst) = true ->
        finite32 y = true).
Proof.
  assert (H1 : negative_rates_heap !! 1%positive = Some negative_rates_inst)
    by (vm_compute; reflexivity).
  assert (H2 : is_init negative_rates_inst = true) by reflexivity.
  assert (H3 : finite32 f_2 = true) by (vm_compute; reflexivity).
  assert (H4 : finite32 (x_prev negative_rates_inst) = true) by (vm_compute; reflexivity).
  assert (H5 : finite32 (k_rise negative_rates_inst) = true) by (vm_compute; reflexivity).
  assert (H6 : finite32 (k_fall negative_rates_inst) = true) by (vm_compute; reflexivity).
  refine (conj H1 (conj H2 (conj H3 (conj H4 (conj H5 (conj H6 _)))))).
  exact (update_finite_no_nan negative_rates_heap 1%positive negative_rates_inst f_2
           H1 H2 H3 H4 H5 H6).
Defined.

End NoNaN.
